(** * Platform association and divergence mapping (codebasin/walkers.py)

    A shallow embedding of the tree walkers of Code Base Investigator:
    the per-node association records, the per-tree association map, the
    branch-aware [TreeAssociator] and the aggregating [PlatformMapper],
    followed by the properties the design document states about them. *)

From stdpp Require Import gmap strings list fin_maps.
From Stdlib Require Import ZArith Lia.

(** ** Nodes and trees

    The node classes are built by the lexer, which the walkers only use
    through a handful of attributes.  A node is modelled with exactly the
    attributes the walkers read:
    - [node_id]: the object identity (nodes are dictionary keys and define
      no equality of their own, so Python hashes them by identity);
    - [type_name]: [type(node).__name__];
    - [filename]: the path carried by a file node (the walkers read it on
      file nodes and on the root of a tree, which is the file node of the
      tree; on other nodes the field is not looked at);
    - [num_lines]: [None] when the object has no [num_lines] attribute;
    - the three group classifications, which are methods without
      arguments, and the ordered children. *)

Local Unset Elimination Schemes.
Inductive Node : Type := mkNode {
  node_id : nat;
  type_name : string;
  filename : string;
  num_lines : option Z;
  is_start_node : bool;
  is_cont_node : bool;
  is_end_node : bool;
  children : list Node }.
Local Set Elimination Schemes.

Record SourceTree : Type := mkSourceTree { root : Node }.

(** The node itself followed by all its descendants, in pre-order. *)
Fixpoint subtree (n : Node) : list Node :=
  n :: (fix each (cs : list Node) : list Node :=
          match cs with
          | [] => []
          | c :: cs' => subtree c ++ each cs'
          end) (children n).

Definition descendants (n : Node) : list Node :=
  children n ≫= subtree.

(** ** NodeAssociation: the set of platforms of one node *)

Record NodeAssociation : Type := mkNodeAssociation { platforms : gset string }.

Definition NodeAssociation_init : NodeAssociation := mkNodeAssociation ∅.

Definition NodeAssociation_add_platform
    (self : NodeAssociation) (_platform : string) : NodeAssociation :=
  if decide (_platform ∉ platforms self)
  then mkNodeAssociation (platforms self ∪ {[ _platform ]})
  else self.

(** ** NodeAssociationMap: node identity to association record *)

Abbreviation NodeAssociationMap := (gmap nat NodeAssociation).

Definition NodeAssociationMap_init : NodeAssociationMap := ∅.

Definition NodeAssociationMap_prepare_node
    (self : NodeAssociationMap) (_node : Node) : NodeAssociationMap :=
  match self !! node_id _node with
  | None => <[ node_id _node := NodeAssociation_init ]> self
  | Some _ => self
  end.

Definition NodeAssociationMap_add_platform
    (self : NodeAssociationMap) (_node : Node) (_platform : string)
    : NodeAssociationMap :=
  let self := NodeAssociationMap_prepare_node self _node in
  alter (fun a => NodeAssociation_add_platform a _platform) (node_id _node) self.

Definition NodeAssociationMap_get_association
    (self : NodeAssociationMap) (_node : Node) : option NodeAssociation :=
  self !! node_id _node.

(** ** TreeAssociator

    [evaluate_for_platform] belongs to the node classes.  It may fail
    (the exception is not caught by the walker) and it may update the
    platform and the analysis state it is given; both are threaded as an
    abstract world [W].  The association map of the tree being walked is
    written by the walker only. *)

Inductive outcome (A : Type) : Type :=
| Returned (a : A)
| Raised.
Arguments Returned {A} a.
Arguments Raised {A}.

Section Associator.
Context {Platform W : Type}.
Variable name : Platform -> string.
Variable evaluate_for_platform :
  Node -> Platform -> string -> W -> option bool * W.

(** The flag update at the end of one iteration of the loop over the
    children. *)
Definition next_process_child
    (process_child child_processed : bool) (child : Node) : bool :=
  if child_processed && (is_start_node child || is_cont_node child) then false
  else if negb process_child && is_end_node child then true
  else process_child.

(** The result is the value returned, or [Raised] when the evaluation of
    some node failed, together with the association map and the world as
    the call leaves them. *)
Fixpoint _associate_nodes (tree : SourceTree) (node : Node)
    (platform : Platform) (process_children : bool)
    (assoc : NodeAssociationMap) (w : W)
    : outcome bool * NodeAssociationMap * W :=
  let assoc := NodeAssociationMap_add_platform assoc node (name platform) in
  if process_children then
    match evaluate_for_platform node platform (filename (root tree)) w with
    | (None, w) => (Raised, assoc, w)
    | (Some false, w) => (Returned false, assoc, w)
    | (Some true, w) =>
        let each_child :=
          fix each_child (cs : list Node) (process_child : bool)
              (assoc : NodeAssociationMap) (w : W)
              : outcome bool * NodeAssociationMap * W :=
            match cs with
            | [] => (Returned process_child, assoc, w)
            | child :: cs' =>
                match _associate_nodes tree child platform process_child assoc w with
                | (Raised, assoc, w) => (Raised, assoc, w)
                | (Returned child_processed, assoc, w) =>
                    each_child cs'
                      (next_process_child process_child child_processed child)
                      assoc w
                end
            end in
        match each_child (children node) true assoc w with
        | (Raised, assoc, w) => (Raised, assoc, w)
        | (Returned _, assoc, w) => (Returned true, assoc, w)
        end
    end
  else (Returned false, assoc, w).

(** The loop over the children, as a function of its own. *)
Fixpoint associate_children (tree : SourceTree) (cs : list Node)
    (platform : Platform) (process_child : bool)
    (assoc : NodeAssociationMap) (w : W)
    : outcome bool * NodeAssociationMap * W :=
  match cs with
  | [] => (Returned process_child, assoc, w)
  | child :: cs' =>
      match _associate_nodes tree child platform process_child assoc w with
      | (Raised, assoc, w) => (Raised, assoc, w)
      | (Returned child_processed, assoc, w) =>
          associate_children tree cs' platform
            (next_process_child process_child child_processed child)
            assoc w
      end
  end.

Definition TreeAssociator_walk (tree : SourceTree) (platform : Platform)
    (assoc : NodeAssociationMap) (w : W)
    : outcome unit * NodeAssociationMap * W :=
  match _associate_nodes tree (root tree) platform true assoc w with
  | (Raised, assoc, w) => (Raised, assoc, w)
  | (Returned _, assoc, w) => (Returned tt, assoc, w)
  end.
End Associator.

(** ** TreeMapper and PlatformMapper *)

Record Codebase : Type := mkCodebase { files : list string }.

(** The analysis state, as far as the mapper reads it: the file names it
    knows, and the tree and the association map of each. *)
Record State : Type := mkState {
  get_filenames : list string;
  get_tree : string -> SourceTree;
  get_map : string -> NodeAssociationMap }.

Record PlatformMapper : Type := mkPlatformMapper {
  codebase : Codebase;
  line_map : gmap (gset string) Z;
  file_map : gmap (gset string) (gmap string Z) }.

Definition PlatformMapper_init (codebase : Codebase) : PlatformMapper :=
  mkPlatformMapper codebase ∅ ∅.

Definition _null_set : gset string := ∅.

(** [d[k] += n] on a [defaultdict(int)]. *)
Definition defaultdict_iadd `{Countable K} (k : K) (n : Z) (d : gmap K Z)
    : gmap K Z :=
  <[ k := (default 0 (d !! k) + n)%Z ]> d.

(** [if k not in d: d[k] = v]. *)
Definition set_if_absent `{Countable K} {V} (k : K) (v : V) (d : gmap K V)
    : gmap K V :=
  match d !! k with
  | None => <[ k := v ]> d
  | Some _ => d
  end.

Definition is_file_node (n : Node) : bool := String.eqb (type_name n) "FileNode".

(** An association record is an object without [__bool__] or [__len__],
    so [if association] asks whether the lookup found one. *)
Fixpoint _map_node (self : PlatformMapper) (_fn : string) (_node : Node)
    (_map : NodeAssociationMap) : PlatformMapper :=
  if is_file_node _node
     && negb (bool_decide (filename _node ∈ files (codebase self)))
  then self
  else
    let self :=
      match num_lines _node with
      | Some lines =>
          if negb (is_file_node _node) then
            match NodeAssociationMap_get_association _map _node with
            | Some association =>
                let platform := platforms association in
                let lm := defaultdict_iadd platform lines (line_map self) in
                let fm := set_if_absent platform ∅ (file_map self) in
                let fm := alter (set_if_absent _fn 0%Z) platform fm in
                let fm := alter (defaultdict_iadd _fn lines) platform fm in
                mkPlatformMapper (codebase self) lm fm
            | None =>
                let lm := defaultdict_iadd _null_set lines (line_map self) in
                let fm := set_if_absent _null_set ∅ (file_map self) in
                let fm := alter (set_if_absent _fn 0%Z) _null_set fm in
                let fm := alter (defaultdict_iadd _fn lines) _null_set fm in
                mkPlatformMapper (codebase self) lm fm
            end
          else self
      | None => self
      end in
    foldl (fun self child => _map_node self _fn child _map) self (children _node).

(** [walk] returns the pair of maps; the mapper object keeps them. *)
Definition PlatformMapper_walk (self : PlatformMapper) (state : State)
    : PlatformMapper * (gmap (gset string) Z * gmap (gset string) (gmap string Z)) :=
  let self :=
    if bool_decide (line_map self = ∅) then
      foldl (fun self fn =>
               _map_node self fn (root (get_tree state fn)) (get_map state fn))
            self (get_filenames state)
    else self in
  (self, (line_map self, file_map self)).

(** ** Vocabulary of the properties *)

(** Platform [p] is recorded against the node with identity [k]. *)
Definition recorded (m : NodeAssociationMap) (k : nat) (p : string) : Prop :=
  ∃ a, m !! k = Some a ∧ p ∈ platforms a.

(** The platform-set key under which the mapper counts a node: the frozen
    set of its record, or the empty set when the node has no record. *)
Definition platform_key (m : NodeAssociationMap) (n : Node) : gset string :=
  match NodeAssociationMap_get_association m n with
  | Some association => platforms association
  | None => _null_set
  end.

(** A code node carries [num_lines] and is not a file node. *)
Definition is_code_node (n : Node) : bool :=
  match num_lines n with
  | Some _ => negb (is_file_node n)
  | None => false
  end.

Definition lines_of (n : Node) : Z := default 0%Z (num_lines n).

Definition sum_lines (l : list Node) : Z :=
  foldr (fun n acc => (lines_of n + acc)%Z) 0%Z l.

Definition code_nodes (t : SourceTree) : list Node :=
  filter (fun n => is_code_node n = true) (subtree (root t)).

(** The sum of the values of a dictionary of counts. *)
Definition map_sum `{Countable K} (m : gmap K Z) : Z :=
  map_fold (fun _ v acc => (v + acc)%Z) 0%Z m.

(** The tree of file [fn]: rooted at the file node of that path, with no
    other file node below it. *)
Definition file_tree (fn : string) (t : SourceTree) : Prop :=
  is_file_node (root t) = true ∧ filename (root t) = fn ∧
  Forall (fun n => is_file_node n = false) (descendants (root t)).

Definition well_formed (st : State) : Prop :=
  ∀ fn, fn ∈ get_filenames st → file_tree fn (get_tree st fn).

(** The files of the state that belong to the codebase, in walk order. *)
Definition codebase_files (cb : Codebase) (st : State) : list string :=
  filter (fun fn => fn ∈ files cb) (get_filenames st).

(** Every code node of every in-codebase file, with its file. *)
Definition all_code_nodes (cb : Codebase) (st : State) : list (string * Node) :=
  fn ← codebase_files cb st; (fun n => (fn, n)) <$> code_nodes (get_tree st fn).

Definition total_code_lines (cb : Codebase) (st : State) : Z :=
  sum_lines (all_code_nodes cb st).*2.

(** The code nodes counted under key [S], over the whole codebase and
    within one file. *)
Definition nodes_with_key (cb : Codebase) (st : State) (S : gset string)
    : list (string * Node) :=
  filter (fun fnn => platform_key (get_map st fnn.1) fnn.2 = S)
         (all_code_nodes cb st).

Definition nodes_with_key_in (cb : Codebase) (st : State) (S : gset string)
    (fn : string) : list (string * Node) :=
  filter (fun fnn => fnn.1 = fn) (nodes_with_key cb st S).

(** The two maps agree: same keys, and each total is the sum of the
    per-file counts. *)
Definition consistent (self : PlatformMapper) : Prop :=
  ∀ S, line_map self !! S = map_sum <$> (file_map self !! S).

(** Recording a sequence of platform names against one node. *)
Definition add_platforms (m : NodeAssociationMap) (n : Node)
    (names : list string) : NodeAssociationMap :=
  foldl (fun m p => NodeAssociationMap_add_platform m n p) m names.

(** [a'] differs from [a] only at the identities [ids], and there only by
    growing. *)
Definition extends_within (ids : list nat) (a a' : NodeAssociationMap) : Prop :=
  (∀ k, k ∉ ids → a' !! k = a !! k) ∧ (∀ k q, recorded a k q → recorded a' k q).

Section AssociatorVocabulary.
Context {Platform W : Type}.
Variable evaluate_for_platform :
  Node -> Platform -> string -> W -> option bool * W.

(** The node applies to the platform, whatever the world it is asked in. *)
Definition applicable (p : Platform) (fn : string) (n : Node) : Prop :=
  ∀ w, (evaluate_for_platform n p fn w).1 = Some true.

(** An unconditional node outside any group, such as a code node. *)
Definition plain (p : Platform) (fn : string) (n : Node) : Prop :=
  applicable p fn n ∧ is_start_node n = false ∧ is_cont_node n = false.
End AssociatorVocabulary.

(** Recording platform names against nodes, call after call: all the
    associator ever does to a map. *)
Definition record_calls (m : NodeAssociationMap) (calls : list (Node * string))
    : NodeAssociationMap :=
  foldl (fun m c => NodeAssociationMap_add_platform m c.1 c.2) m calls.

(** The names the calls record against node [n]. *)
Definition names_for (n : Node) (calls : list (Node * string)) : list string :=
  (filter (fun c => node_id c.1 = node_id n) calls).*2.

(** What the mapper does with the [lines] of one code node of file [fn]
    whose key is [S]. *)
Definition account (self : PlatformMapper) (fn : string) (S : gset string)
    (lines : Z) : PlatformMapper :=
  mkPlatformMapper (codebase self)
    (defaultdict_iadd S lines (line_map self))
    (alter (defaultdict_iadd fn lines) S
       (alter (set_if_absent fn 0%Z) S (set_if_absent S ∅ (file_map self)))).

Definition account_node (st : State) (self : PlatformMapper)
    (x : string * Node) : PlatformMapper :=
  account self x.1 (platform_key (get_map st x.1) x.2) (lines_of x.2).

(** The code nodes the mapper reaches below a node, in the order it
    counts them. *)
Fixpoint mapped_nodes (cb : Codebase) (n : Node) : list Node :=
  if is_file_node n && negb (bool_decide (filename n ∈ files cb)) then []
  else (if is_code_node n then [n] else []) ++
       (fix each (cs : list Node) : list Node :=
          match cs with
          | [] => []
          | c :: cs' => mapped_nodes cb c ++ each cs'
          end) (children n).

(** ** The end-to-end scenario

    One file: a 3-line prologue, a 5-line block under [#if A], a 2-line
    block under [#else], the closing [#endif] and a 1-line epilogue. *)

Definition code_node (i : nat) (lines : Z) : Node :=
  mkNode i "CodeNode" EmptyString (Some lines) false false false [].

Definition scenario_prologue : Node := code_node 1 3.
Definition scenario_if_body : Node := code_node 3 5.
Definition scenario_if : Node :=
  mkNode 2 "IfNode" EmptyString None true false false [scenario_if_body].
Definition scenario_else_body : Node := code_node 5 2.
Definition scenario_else : Node :=
  mkNode 4 "ElseNode" EmptyString None false true false [scenario_else_body].
Definition scenario_endif : Node :=
  mkNode 6 "EndIfNode" EmptyString None false false true [].
Definition scenario_epilogue : Node := code_node 7 1.

Definition scenario_root (fn : string) : Node :=
  mkNode 0 "FileNode" fn None false false false
    [scenario_prologue; scenario_if; scenario_else; scenario_endif;
     scenario_epilogue].

Definition scenario_tree (fn : string) : SourceTree :=
  mkSourceTree (scenario_root fn).

(** The nodes a pass records when [A] holds, and when it does not. *)
Definition scenario_calls_taken (fn p : string) : list (Node * string) :=
  (fun n => (n, p)) <$>
    [scenario_root fn; scenario_prologue; scenario_if; scenario_if_body;
     scenario_else; scenario_endif; scenario_epilogue].

Definition scenario_calls_not_taken (fn p : string) : list (Node * string) :=
  (fun n => (n, p)) <$>
    [scenario_root fn; scenario_prologue; scenario_if; scenario_else;
     scenario_else_body; scenario_endif; scenario_epilogue].

(** An evaluation for the scenario, with platforms given by their names
    and nothing to update: [A] holds on "p1" only. *)
Definition scenario_evaluate (n : Node) (p : string) (fn : string) (w : unit)
    : option bool * unit :=
  (Some (if String.eqb (type_name n) "IfNode" then String.eqb p "p1" else true),
   w).

(** The state holding the file of the scenario alone, with a given
    association map. *)
Definition scenario_state (fn : string) (m : NodeAssociationMap) : State :=
  mkState [fn] (fun _ => scenario_tree fn) (fun _ => m).

(** ** Passes with an evaluation that does not depend on the world *)

(** The answers of the evaluation for platform [p] in file [fn] are those
    of [e], whatever the world. *)
Definition answers {Platform W : Type}
    (evaluate_for_platform : Node -> Platform -> string -> W -> option bool * W)
    (p : Platform) (fn : string) (e : Node -> option bool) : Prop :=
  ∀ n w, (evaluate_for_platform n p fn w).1 = e n.

(** What a pass returns and the nodes it records, in order, when the
    evaluation answers [e]. *)
Fixpoint visited (e : Node -> option bool) (node : Node)
    (process_children : bool) : outcome bool * list Node :=
  if process_children then
    match e node with
    | None => (Raised, [node])
    | Some false => (Returned false, [node])
    | Some true =>
        match (fix each (cs : list Node) (process_child : bool)
                 : outcome bool * list Node :=
                 match cs with
                 | [] => (Returned process_child, [])
                 | child :: cs' =>
                     match visited e child process_child with
                     | (Raised, l) => (Raised, l)
                     | (Returned child_processed, l) =>
                         let '(o, l') :=
                           each cs' (next_process_child process_child
                                       child_processed child) in
                         (o, l ++ l')
                     end
                 end) (children node) true with
        | (Raised, l) => (Raised, node :: l)
        | (Returned _, l) => (Returned true, node :: l)
        end
    end
  else (Returned false, [node]).

Fixpoint visited_children (e : Node -> option bool) (cs : list Node)
    (process_child : bool) : outcome bool * list Node :=
  match cs with
  | [] => (Returned process_child, [])
  | child :: cs' =>
      match visited e child process_child with
      | (Raised, l) => (Raised, l)
      | (Returned child_processed, l) =>
          let '(o, l') :=
            visited_children e cs'
              (next_process_child process_child child_processed child) in
          (o, l ++ l')
      end
  end.

(** Recording one name against a list of nodes. *)
Definition calls_of (p : string) (l : list Node) : list (Node * string) :=
  (fun n => (n, p)) <$> l.

(** No node has a record without a platform. *)
Definition no_empty_records (m : NodeAssociationMap) : Prop :=
  ∀ k a, m !! k = Some a → platforms a ≠ ∅.

(** The lines the file map holds for one file, over all keys. *)
Definition file_total (fm : gmap (gset string) (gmap string Z)) (fn : string)
    : Z :=
  map_sum ((fun per_file : gmap string Z => default 0%Z (per_file !! fn)) <$> fm).

(** ** TreePrinter

    [str(node)] belongs to the node classes, and the order in which Python
    iterates a set is not fixed by the language: both are parameters.  The
    lines printed are returned as a list. *)

Section Printer.
Variable node_str : Node -> string.
Variable iteration : gset string -> list string.

(** [spacing] after the loop over [range(level)]. *)
Definition spacing (level : nat) : string :=
  Nat.iter level (String.append "  ") EmptyString.

(** [sep.join(l)]. *)
Fixpoint join (sep : string) (l : list string) : string :=
  match l with
  | [] => EmptyString
  | [x] => x
  | x :: l' => x +:+ sep +:+ join sep l'
  end.

Definition print_line (assoc : NodeAssociationMap) (node : Node) (level : nat)
    : string :=
  let platform :=
    match NodeAssociationMap_get_association assoc node with
    | Some association => join ", " (iteration (platforms association))
    | None => EmptyString
    end in
  spacing level +:+ node_str node +:+ " -- Platforms: " +:+ platform.

Fixpoint __print_nodes (assoc : NodeAssociationMap) (node : Node) (level : nat)
    : list string :=
  print_line assoc node level ::
  (fix each (cs : list Node) : list string :=
     match cs with
     | [] => []
     | child :: cs' => __print_nodes assoc child (level + 1) ++ each cs'
     end) (children node).

Definition TreePrinter_walk (tree : SourceTree) (assoc : NodeAssociationMap)
    : list string :=
  __print_nodes assoc (root tree) 0.
End Printer.


(** ** codebasin.py: the command line *)

(** [report_enabled], with the list that the parser stored in
    [args.reports]. *)
Definition report_enabled (reports : list string) (name : string) : bool :=
  if bool_decide ("all" ∈ reports) then true else bool_decide (name ∈ reports).

(** What the parser accepts for [--report]: one or more of the choices. *)
Definition report_choices : list string :=
  ["all"; "summary"; "clustering"; "filemap"].

Definition accepted_reports (reports : list string) : Prop :=
  reports ≠ [] ∧ Forall (fun r => r ∈ report_choices) reports.

(** [logging.WARNING], and the level the script sets from the counts of
    [-v] and [-q]. *)
Definition WARNING : Z := 30.

Definition log_level (verbose quiet : Z) : Z :=
  Z.max 1 (WARNING - 10 * (verbose - quiet)).

(** A state with two files, each with the tree of the scenario, and
    nothing associated yet. *)
Definition two_file_state : State :=
  mkState ["a.c"; "b.c"] scenario_tree (fun _ => NodeAssociationMap_init).

(** The answers of [scenario_evaluate] for a platform. *)
Definition scenario_answers (p : string) (n : Node) : option bool :=
  (scenario_evaluate n p EmptyString tt).1.

(** ** The calls a pass makes

    A call of [_associate_nodes] is given by its node, its flag, and the
    map and the world it starts from. *)

Section AssociatorCalls.
Context {Platform W : Type}.
Variable name : Platform -> string.
Variable evaluate_for_platform :
  Node -> Platform -> string -> W -> option bool * W.

(** The call on [node] from [a] and [w], with its flag set, finds the node
    applicable, runs its loop over the children [pre] and then calls
    [child] with [flag], from [a'] and [w']. *)
Definition enters (tree : SourceTree) (p : Platform)
    (node : Node) (a : NodeAssociationMap) (w : W)
    (pre : list Node) (child : Node) (flag : bool)
    (a' : NodeAssociationMap) (w' : W) : Prop :=
  ∃ w0 post,
    evaluate_for_platform node p (filename (root tree)) w = (Some true, w0) ∧
    children node = pre ++ child :: post ∧
    associate_children name evaluate_for_platform tree pre p true
      (NodeAssociationMap_add_platform a node (name p)) w0
    = (Returned flag, a', w').

(** One call makes the other, directly. *)
Definition calls_child (tree : SourceTree) (p : Platform)
    (c c' : Node * bool * NodeAssociationMap * W) : Prop :=
  c.1.1.2 = true ∧
  ∃ pre, enters tree p c.1.1.1 c.1.2 c.2 pre c'.1.1.1 c'.1.1.2 c'.1.2 c'.2.

(** The first call, in the course of its run, makes the second. *)
Definition reaches (tree : SourceTree) (p : Platform)
    : relation (Node * bool * NodeAssociationMap * W) :=
  rtc (calls_child tree p).

(** The map a call leaves. *)
Definition call_result (tree : SourceTree) (p : Platform)
    (c : Node * bool * NodeAssociationMap * W) : NodeAssociationMap :=
  (_associate_nodes name evaluate_for_platform tree c.1.1.1 p c.1.1.2 c.1.2
     c.2).1.2.
End AssociatorCalls.

(** A file with a group nested in a branch, after a first group of that
    branch that is already closed. *)
Definition nested_first_if : Node :=
  mkNode 11 "IfNode" EmptyString None true false false [code_node 12 1].
Definition nested_first_endif : Node :=
  mkNode 13 "EndIfNode" EmptyString None false false true [].
Definition nested_if_body : Node := code_node 15 5.
Definition nested_if : Node :=
  mkNode 14 "IfNode" EmptyString None true false false [nested_if_body].
Definition nested_else_body : Node := code_node 17 2.
Definition nested_else : Node :=
  mkNode 16 "ElseNode" EmptyString None false true false [nested_else_body].
Definition nested_endif : Node :=
  mkNode 18 "EndIfNode" EmptyString None false false true [].
Definition nested_epilogue : Node := code_node 19 1.
Definition nested_outer_if : Node :=
  mkNode 10 "IfNode" EmptyString None true false false
    [nested_first_if; nested_first_endif; nested_if; nested_else;
     nested_endif; nested_epilogue].
Definition nested_outer_endif : Node :=
  mkNode 20 "EndIfNode" EmptyString None false false true [].
Definition nested_root (fn : string) : Node :=
  mkNode 0 "FileNode" fn None false false false
    [nested_outer_if; nested_outer_endif].
Definition nested_tree (fn : string) : SourceTree :=
  mkSourceTree (nested_root fn).

(** Induction on nodes, with the property available on all children. *)
Fixpoint Node_ind (P : Node -> Prop)
    (step : ∀ n, Forall P (children n) → P n) (n : Node) : P n :=
  step n
    ((fix each (cs : list Node) : Forall P cs :=
        match cs with
        | [] => Forall_nil_2 P
        | c :: cs' => Forall_cons_2 P c cs' (Node_ind P step c) (each cs')
        end) (children n)).

(** * Facts *)

(** ** Trees *)

Lemma subtree_unfold n : subtree n = n :: descendants n.
Proof.
  by destruct n.
Qed.

Lemma descendants_children n c d :
  c ∈ children n → d ∈ subtree c → d ∈ descendants n.
Proof.
  intros Hc Hd. unfold descendants. apply list_elem_of_bind. by exists c.
Qed.

Lemma subtree_self n : n ∈ subtree n.
Proof. rewrite subtree_unfold. apply elem_of_cons. by left. Qed.

Lemma descendants_subtree n d : d ∈ descendants n → d ∈ subtree n.
Proof. intros Hd. rewrite subtree_unfold. apply elem_of_cons. by right. Qed.

Lemma elem_of_bind_subtree (l : list Node) c : c ∈ l → c ∈ l ≫= subtree.
Proof. intros Hc. apply list_elem_of_bind. exists c. split; [apply subtree_self|done]. Qed.

(** With distinct identities, a descendant of one sibling is none of the
    siblings. *)
Lemma sibling_descendant_fresh (alts : list Node) C d :
  NoDup (node_id <$> (alts ≫= subtree)) → C ∈ alts → d ∈ descendants C →
  node_id d ∉ node_id <$> alts.
Proof.
  induction alts as [|c l IH]; intros Hnd HC Hd.
  { by apply elem_of_nil in HC. }
  rewrite bind_cons, fmap_app, subtree_unfold, fmap_cons in Hnd.
  cbn [app] in Hnd. apply NoDup_cons in Hnd as [Hc Hnd].
  apply NoDup_app in Hnd as (_ & Hdis & Hl).
  rewrite fmap_cons. apply not_elem_of_cons.
  apply elem_of_cons in HC as [->|HC]; split.
  - intros Heq. apply Hc. rewrite <- Heq. apply elem_of_app. left.
    by apply list_elem_of_fmap_2.
  - intros Hin. apply (Hdis (node_id d)); [by apply list_elem_of_fmap_2|].
    apply list_elem_of_fmap in Hin as (c' & -> & Hc').
    by apply list_elem_of_fmap_2, elem_of_bind_subtree.
  - intros Heq. apply Hc. rewrite <- Heq. apply elem_of_app. right.
    apply list_elem_of_fmap_2, list_elem_of_bind. exists C.
    split; [by apply descendants_subtree|done].
  - by apply IH.
Qed.

Lemma NoDup_middle (x : nat) (A B C D F : list nat) k :
  NoDup (x :: (A ++ B ++ C ++ D ++ F)) → k ∈ C →
  k ≠ x ∧ (k ∉ A) ∧ (k ∉ B) ∧ (k ∉ D) ∧ (k ∉ F) ∧ NoDup C.
Proof.
  intros Hnd Hk. apply NoDup_cons in Hnd as [Hx Hnd].
  apply NoDup_app in Hnd as (_ & HA & Hnd).
  apply NoDup_app in Hnd as (_ & HB & Hnd).
  apply NoDup_app in Hnd as (HC & HCD & Hnd).
  repeat split; [| | | | |done].
  - intros ->. apply Hx. rewrite !elem_of_app. auto.
  - intros Hin. apply (HA k Hin). rewrite !elem_of_app. auto.
  - intros Hin. apply (HB k Hin). rewrite !elem_of_app. auto.
  - intros Hin. apply (HCD k Hk). rewrite !elem_of_app. auto.
  - intros Hin. apply (HCD k Hk). rewrite !elem_of_app. auto.
Qed.

(** ** Association records and maps *)

Lemma NodeAssociation_add_platform_platforms a p :
  platforms (NodeAssociation_add_platform a p) = platforms a ∪ {[ p ]}.
Proof.
  unfold NodeAssociation_add_platform.
  destruct (decide (p ∉ platforms a)) as [Hp|Hp]; [done|].
  apply dec_stable in Hp. set_solver.
Qed.

Lemma add_platform_lookup_eq (m : NodeAssociationMap) n p :
  platforms <$> (NodeAssociationMap_add_platform m n p !! node_id n)
  = Some (default ∅ (platforms <$> (m !! node_id n)) ∪ {[ p ]}).
Proof.
  unfold NodeAssociationMap_add_platform, NodeAssociationMap_prepare_node.
  rewrite lookup_alter_eq.
  destruct (m !! node_id n) as [a|] eqn:E.
  - rewrite E. simpl. by rewrite NodeAssociation_add_platform_platforms.
  - rewrite lookup_insert_eq. simpl.
    by rewrite NodeAssociation_add_platform_platforms.
Qed.

Lemma add_platform_lookup_ne (m : NodeAssociationMap) n p k :
  k ≠ node_id n → NodeAssociationMap_add_platform m n p !! k = m !! k.
Proof.
  intros Hk.
  unfold NodeAssociationMap_add_platform, NodeAssociationMap_prepare_node.
  rewrite lookup_alter_ne by done.
  destruct (m !! node_id n); [done|]. by rewrite lookup_insert_ne.
Qed.

Lemma add_platform_recorded (m : NodeAssociationMap) n p :
  recorded (NodeAssociationMap_add_platform m n p) (node_id n) p.
Proof.
  pose proof (add_platform_lookup_eq m n p) as H.
  destruct (NodeAssociationMap_add_platform m n p !! node_id n) as [a|] eqn:E;
    [|done].
  exists a. split; [done|]. simpl in H. injection H as Hb. rewrite Hb.
  set_solver.
Qed.

Lemma add_platform_mono (m : NodeAssociationMap) n p k q :
  recorded m k q → recorded (NodeAssociationMap_add_platform m n p) k q.
Proof.
  intros (a & Ha & Hq). destruct (decide (k = node_id n)) as [->|Hne].
  - pose proof (add_platform_lookup_eq m n p) as H. rewrite Ha in H.
    destruct (NodeAssociationMap_add_platform m n p !! node_id n) as [b|] eqn:E;
      [|done].
    exists b. split; [done|]. simpl in H. injection H as Hb. rewrite Hb.
    set_solver.
  - exists a. by rewrite add_platform_lookup_ne.
Qed.

Lemma prepare_node_mono (m : NodeAssociationMap) n k q :
  recorded m k q → recorded (NodeAssociationMap_prepare_node m n) k q.
Proof.
  intros (a & Ha & Hq). unfold NodeAssociationMap_prepare_node.
  destruct (m !! node_id n) eqn:E; [by exists a|].
  exists a. split; [|done]. rewrite lookup_insert_ne; [done|]. congruence.
Qed.

Lemma extends_within_refl ids a : extends_within ids a a.
Proof. by split. Qed.

Lemma extends_within_trans ids1 ids2 ids a1 a2 a3 :
  ids1 ⊆ ids → ids2 ⊆ ids →
  extends_within ids1 a1 a2 → extends_within ids2 a2 a3 →
  extends_within ids a1 a3.
Proof.
  intros H1 H2 [F1 M1] [F2 M2]. split.
  - intros k Hk. rewrite F2, F1; [done|..]; intros ?; apply Hk; auto.
  - intros k q Hr. by apply M2, M1.
Qed.

Lemma extends_within_add a n p :
  extends_within [node_id n] a (NodeAssociationMap_add_platform a n p).
Proof.
  split.
  - intros k Hk. apply add_platform_lookup_ne. set_solver.
  - intros k q. apply add_platform_mono.
Qed.

Lemma NodeAssociation_add_platform_idem a p :
  p ∈ platforms a → NodeAssociation_add_platform a p = a.
Proof.
  intros Hp. unfold NodeAssociation_add_platform.
  by destruct (decide (p ∉ platforms a)).
Qed.

Lemma NodeAssociationMap_add_platform_idem (m : NodeAssociationMap) n p :
  recorded m (node_id n) p → NodeAssociationMap_add_platform m n p = m.
Proof.
  intros (a & Ha & Hp).
  unfold NodeAssociationMap_add_platform, NodeAssociationMap_prepare_node.
  rewrite Ha. apply map_eq. intros k.
  destruct (decide (k = node_id n)) as [->|Hk].
  - rewrite lookup_alter_eq, Ha. simpl.
    by rewrite NodeAssociation_add_platform_idem.
  - by rewrite lookup_alter_ne.
Qed.

(** ** The associator *)

Section AssociatorFacts.
Context {Platform W : Type}.
Variable name : Platform -> string.
Variable evaluate_for_platform :
  Node -> Platform -> string -> W -> option bool * W.

Local Abbreviation assoc_nodes := (_associate_nodes name evaluate_for_platform).
Local Abbreviation assoc_children :=
  (associate_children name evaluate_for_platform).

Lemma _associate_nodes_unfold tree node p pc a w :
  assoc_nodes tree node p pc a w =
  let a1 := NodeAssociationMap_add_platform a node (name p) in
  if pc then
    match evaluate_for_platform node p (filename (root tree)) w with
    | (None, w1) => (Raised, a1, w1)
    | (Some false, w1) => (Returned false, a1, w1)
    | (Some true, w1) =>
        match assoc_children tree (children node) p true a1 w1 with
        | (Raised, a2, w2) => (Raised, a2, w2)
        | (Returned _, a2, w2) => (Returned true, a2, w2)
        end
    end
  else (Returned false, a1, w).
Proof.
  destruct node as [i ty f nl s c e cs]. cbn [_associate_nodes children].
  destruct pc; [|done].
  destruct (evaluate_for_platform _ _ _ _) as [[[|]|] w1]; try done.
  cbv zeta.
  match goal with
  | |- match ?F cs true ?a1 w1 with _ => _ end = _ =>
      assert (HF : ∀ l b a0 w0, F l b a0 w0 = assoc_children tree l p b a0 w0)
  end.
  { induction l as [|c0 l IH]; intros b a0 w0; [done|].
    cbn [associate_children].
    destruct (assoc_nodes tree c0 p b a0 w0) as [[[r|] a2] w2]; [|done].
    apply IH. }
  by rewrite HF.
Qed.

Lemma _associate_nodes_skip tree node p a w :
  assoc_nodes tree node p false a w
  = (Returned false, NodeAssociationMap_add_platform a node (name p), w).
Proof. by rewrite _associate_nodes_unfold. Qed.

Lemma associate_children_extends_aux tree cs p :
  Forall (fun c => ∀ pc a w,
    extends_within (node_id <$> subtree c) a (assoc_nodes tree c p pc a w).1.2) cs →
  ∀ pc a w,
    extends_within (node_id <$> (cs ≫= subtree)) a
      (assoc_children tree cs p pc a w).1.2.
Proof.
  induction 1 as [|c cs Hc _ IH]; intros pc a w.
  { apply extends_within_refl. }
  cbn [associate_children]. specialize (Hc pc a w).
  destruct (assoc_nodes tree c p pc a w) as [[[r|] a1] w1]; cbn [fst snd] in *.
  - eapply extends_within_trans; [| |exact Hc|apply IH];
      rewrite bind_cons, fmap_app; set_solver.
  - eapply extends_within_trans;
      [| |exact Hc|apply (extends_within_refl [])];
      rewrite bind_cons, fmap_app; set_solver.
Qed.

(** A pass writes only at the nodes of the subtree it is started on, and
    only adds. *)
Lemma _associate_nodes_extends tree node p pc a w :
  extends_within (node_id <$> subtree node) a
    (assoc_nodes tree node p pc a w).1.2.
Proof.
  revert pc a w. induction node as [node IH] using Node_ind. intros pc a w.
  rewrite _associate_nodes_unfold. cbv zeta.
  assert (Hadd : extends_within (node_id <$> subtree node) a
            (NodeAssociationMap_add_platform a node (name p))).
  { eapply extends_within_trans;
      [| |apply extends_within_add|apply (extends_within_refl [])];
      rewrite subtree_unfold; set_solver. }
  destruct pc; [|done].
  destruct (evaluate_for_platform _ _ _ _) as [[[|]|] w1]; try done.
  pose proof (associate_children_extends_aux tree (children node) p IH true
                (NodeAssociationMap_add_platform a node (name p)) w1) as Hcs.
  destruct (assoc_children _ _ _ _ _ _) as [[[r|] a2] w2]; simpl in *;
    (eapply extends_within_trans; [| |apply extends_within_add|exact Hcs];
     rewrite subtree_unfold; unfold descendants; set_solver).
Qed.

Lemma associate_children_extends tree cs p pc a w :
  extends_within (node_id <$> (cs ≫= subtree)) a
    (assoc_children tree cs p pc a w).1.2.
Proof.
  apply associate_children_extends_aux, Forall_forall.
  intros c _ pc' a' w'. apply _associate_nodes_extends.
Qed.

(** The node a pass is started on carries the platform afterwards. *)
Lemma _associate_nodes_records tree node p pc a w :
  recorded (assoc_nodes tree node p pc a w).1.2 (node_id node) (name p).
Proof.
  rewrite _associate_nodes_unfold. cbv zeta.
  pose proof (add_platform_recorded a node (name p)) as Hrec.
  destruct pc; [|done].
  destruct (evaluate_for_platform _ _ _ _) as [[[|]|] w1]; try done.
  pose proof (associate_children_extends tree (children node) p true
                (NodeAssociationMap_add_platform a node (name p)) w1) as [_ Hm].
  destruct (assoc_children _ _ _ _ _ _) as [[[r|] a2] w2]; simpl in *; auto.
Qed.
Lemma associate_children_app tree l1 l2 p pc a w :
  assoc_children tree (l1 ++ l2) p pc a w =
  match assoc_children tree l1 p pc a w with
  | (Returned pc', a', w') => assoc_children tree l2 p pc' a' w'
  | (Raised, a', w') => (Raised, a', w')
  end.
Proof.
  revert pc a w. induction l1 as [|c l1 IH]; intros pc a w; [done|].
  cbn [app associate_children].
  destruct (assoc_nodes tree c p pc a w) as [[[r|] a1] w1]; [apply IH|done].
Qed.

(** Once a branch of the group is taken, the siblings up to the node
    that ends the group are recorded but not entered. *)
Lemma associate_children_skip tree alts rest p a w :
  Forall (fun c => is_end_node c = false) alts →
  assoc_children tree (alts ++ rest) p false a w =
  assoc_children tree rest p false
    (foldl (fun m c => NodeAssociationMap_add_platform m c (name p)) a alts) w.
Proof.
  intros Halts. revert a.
  induction Halts as [|c alts Hc _ IH]; intros a; [done|].
  cbn [app associate_children foldl]. rewrite _associate_nodes_skip.
  unfold next_process_child. rewrite Hc. cbn [andb orb negb]. apply IH.
Qed.

Lemma skipped_extends alts p a :
  extends_within (node_id <$> alts) a
    (foldl (fun m c => NodeAssociationMap_add_platform m c (name p)) a alts).
Proof.
  revert a. induction alts as [|c alts IH]; intros a.
  { apply extends_within_refl. }
  cbn [foldl].
  eapply extends_within_trans; [| |apply extends_within_add|apply IH];
    rewrite fmap_cons; set_solver.
Qed.

Lemma associate_children_processed_aux tree cs p :
  Forall (fun c =>
    applicable evaluate_for_platform p (filename (root tree)) c →
    Forall (plain evaluate_for_platform p (filename (root tree)))
           (descendants c) →
    ∀ a w, ∃ a' w',
      assoc_nodes tree c p true a w = (Returned true, a', w') ∧
      ∀ d, d ∈ subtree c → recorded a' (node_id d) (name p)) cs →
  Forall (plain evaluate_for_platform p (filename (root tree)))
         (cs ≫= subtree) →
  ∀ a w, ∃ a' w',
    assoc_children tree cs p true a w = (Returned true, a', w') ∧
    ∀ d, d ∈ cs ≫= subtree → recorded a' (node_id d) (name p).
Proof.
  induction 1 as [|c cs Hc _ IH]; intros Hplain a w.
  { exists a, w. split; [done|]. intros d Hd. by apply elem_of_nil in Hd. }
  rewrite bind_cons, Forall_app, subtree_unfold, Forall_cons in Hplain.
  destruct Hplain as [[(Happ & Hs & Hk) Hdesc] Hrest].
  destruct (Hc Happ Hdesc a w) as (a1 & w1 & E1 & R1).
  destruct (IH Hrest a1 w1) as (a2 & w2 & E2 & R2).
  exists a2, w2. cbn [associate_children]. rewrite E1.
  unfold next_process_child. rewrite Hs, Hk. cbn [andb orb negb].
  split; [done|].
  intros d Hd. rewrite bind_cons in Hd. apply elem_of_app in Hd as [Hd|Hd].
  - pose proof (associate_children_extends tree cs p true a1 w1) as [_ Hm].
    rewrite E2 in Hm. by apply Hm, R1.
  - by apply R2.
Qed.

(** An applicable node whose descendants are all unconditional is
    processed, and the pass records the platform on its whole subtree. *)
Lemma _associate_nodes_processed tree node p :
  applicable evaluate_for_platform p (filename (root tree)) node →
  Forall (plain evaluate_for_platform p (filename (root tree)))
         (descendants node) →
  ∀ a w, ∃ a' w',
    assoc_nodes tree node p true a w = (Returned true, a', w') ∧
    ∀ d, d ∈ subtree node → recorded a' (node_id d) (name p).
Proof.
  induction node as [node IH] using Node_ind. intros Happ Hdesc a w.
  pose proof (_associate_nodes_records tree node p true a w) as Hself.
  rewrite _associate_nodes_unfold in Hself |- *. cbv zeta in *.
  specialize (Happ w).
  destruct (evaluate_for_platform _ _ _ _) as [r w1]. simpl in Happ. subst r.
  destruct (associate_children_processed_aux tree (children node) p IH Hdesc
              (NodeAssociationMap_add_platform a node (name p)) w1)
    as (a2 & w2 & E2 & R2).
  rewrite E2 in Hself |- *. exists a2, w2. split; [done|].
  intros d Hd. rewrite subtree_unfold in Hd.
  apply elem_of_cons in Hd as [->|Hd]; [done|]. by apply R2.
Qed.

Lemma associate_children_processed tree cs p a w :
  Forall (plain evaluate_for_platform p (filename (root tree)))
         (cs ≫= subtree) →
  ∃ a' w',
    assoc_children tree cs p true a w = (Returned true, a', w') ∧
    ∀ d, d ∈ cs ≫= subtree → recorded a' (node_id d) (name p).
Proof.
  intros H. apply associate_children_processed_aux; [|done].
  apply Forall_forall. intros c _. apply _associate_nodes_processed.
Qed.
(** A node that answers applicable where the pass asks it, and whose
    descendants are all unconditional, is processed with its whole
    subtree. *)
Lemma _associate_nodes_processed_at tree node p a w :
  (evaluate_for_platform node p (filename (root tree)) w).1 = Some true →
  Forall (plain evaluate_for_platform p (filename (root tree)))
         (descendants node) →
  ∃ a' w',
    assoc_nodes tree node p true a w = (Returned true, a', w') ∧
    ∀ d, d ∈ subtree node → recorded a' (node_id d) (name p).
Proof.
  intros Hev Hdesc.
  pose proof (_associate_nodes_records tree node p true a w) as Hself.
  rewrite _associate_nodes_unfold in Hself |- *. cbv zeta in *.
  destruct (evaluate_for_platform _ _ _ _) as [r w1]. cbn [fst] in Hev. subst r.
  destruct (associate_children_processed tree (children node) p
              (NodeAssociationMap_add_platform a node (name p)) w1 Hdesc)
    as (a2 & w2 & E2 & R2).
  rewrite E2 in Hself |- *. exists a2, w2. split; [done|].
  intros d Hd. rewrite subtree_unfold in Hd.
  apply elem_of_cons in Hd as [->|Hd]; [done|]. by apply R2.
Qed.

(** A call that is allowed to look at its children and finds the node
    applicable returns true, unless an evaluation below it fails. *)
Lemma applicable_outcome tree node p a w :
  (evaluate_for_platform node p (filename (root tree)) w).1 = Some true →
  (assoc_nodes tree node p true a w).1.1 = Returned true ∨
  (assoc_nodes tree node p true a w).1.1 = Raised.
Proof.
  intros Hev. rewrite _associate_nodes_unfold. cbv zeta.
  destruct (evaluate_for_platform _ _ _ _) as [r w1]. cbn [fst] in Hev. subst r.
  destruct (assoc_children _ _ _ _ _ _) as [[[b|] a2] w2]; auto.
Qed.

Lemma NoDup_child_subtree (node : Node) pre child post :
  children node = pre ++ child :: post →
  NoDup (node_id <$> subtree node) →
  NoDup (node_id <$> subtree child) ∧
  ∀ k, k ∈ node_id <$> subtree child →
    k ≠ node_id node ∧ (k ∉ node_id <$> (pre ≫= subtree)) ∧
    (k ∉ node_id <$> (post ≫= subtree)).
Proof.
  intros Hch Hnd. rewrite subtree_unfold in Hnd. unfold descendants in Hnd.
  rewrite Hch, bind_app, bind_cons, fmap_cons, !fmap_app in Hnd.
  split.
  - apply NoDup_cons in Hnd as [_ Hnd]. apply NoDup_app in Hnd as (_ & _ & Hnd).
    by apply NoDup_app in Hnd as (Hnd & _ & _).
  - intros k Hk.
    destruct (NoDup_middle (node_id node) (node_id <$> (pre ≫= subtree)) []
                (node_id <$> subtree child) [] (node_id <$> (post ≫= subtree))
                k Hnd Hk) as (H1 & H2 & _ & _ & H3 & _).
    done.
Qed.

(** What a call owes to a call it makes: the recordings of the inner call
    stay, and on the nodes of the inner call's subtree the outer call
    does nothing of its own. *)
Lemma enters_result tree p node a w pre child flag a1 w1 :
  enters name evaluate_for_platform tree p node a w pre child flag a1 w1 →
  NoDup (node_id <$> subtree node) →
  child ∈ children node ∧
  NoDup (node_id <$> subtree child) ∧
  (∀ k q, recorded (assoc_nodes tree child p flag a1 w1).1.2 k q →
          recorded (assoc_nodes tree node p true a w).1.2 k q) ∧
  (∀ k, k ∈ node_id <$> subtree child →
     a1 !! k = a !! k ∧
     (assoc_nodes tree node p true a w).1.2 !! k
     = (assoc_nodes tree child p flag a1 w1).1.2 !! k).
Proof.
  intros (w0 & post & Hev & Hch & Hpre) Hnd.
  destruct (NoDup_child_subtree node pre child post Hch Hnd) as [Hndc Hfresh].
  assert (Hin : child ∈ children node).
  { rewrite Hch. apply elem_of_app. right. apply elem_of_cons. by left. }
  pose proof (associate_children_extends tree pre p true
                (NodeAssociationMap_add_platform a node (name p)) w0) as [F1 _].
  rewrite Hpre in F1. cbn [fst snd] in F1.
  assert (Hres : ∃ a2,
            (assoc_nodes tree child p flag a1 w1).1.2 = a2 ∧
            extends_within (node_id <$> (post ≫= subtree)) a2
              (assoc_nodes tree node p true a w).1.2).
  { exists (assoc_nodes tree child p flag a1 w1).1.2. split; [done|].
    rewrite (_associate_nodes_unfold tree node). cbv zeta. rewrite Hev.
    rewrite Hch, associate_children_app, Hpre. cbn [associate_children].
    destruct (assoc_nodes tree child p flag a1 w1) as [[[r|] a2] w2];
      cbn [fst snd].
    - pose proof (associate_children_extends tree post p
                    (next_process_child flag r child) a2 w2) as Hpost.
      by destruct (assoc_children tree post p _ a2 w2) as [[[b|] a3] w3].
    - apply extends_within_refl. }
  destruct Hres as (a2 & Ha2 & [F2 M2]). rewrite Ha2.
  split; [done|]. split; [done|]. split; [exact M2|].
  intros k Hk. destruct (Hfresh k Hk) as (Hk1 & Hk2 & Hk3). split.
  - rewrite F1 by done. by apply add_platform_lookup_ne.
  - by apply F2.
Qed.

Lemma reaches_result tree p c c' :
  reaches name evaluate_for_platform tree p c c' →
  NoDup (node_id <$> subtree c.1.1.1) →
  (∀ x, x ∈ subtree c'.1.1.1 → x ∈ subtree c.1.1.1) ∧
  NoDup (node_id <$> subtree c'.1.1.1) ∧
  (∀ k q, recorded (call_result name evaluate_for_platform tree p c') k q →
          recorded (call_result name evaluate_for_platform tree p c) k q) ∧
  (∀ k, k ∈ node_id <$> subtree c'.1.1.1 →
     c'.1.2 !! k = c.1.2 !! k ∧
     call_result name evaluate_for_platform tree p c !! k
     = call_result name evaluate_for_platform tree p c' !! k).
Proof.
  induction 1 as [c|c c1 c' [Hflag [pre Hent]] _ IH]; intros Hnd; [done|].
  destruct c as [[[n b] a] w], c1 as [[[n1 b1] a1] w1].
  cbn [fst snd] in *. subst b.
  destruct (enters_result tree p n a w pre n1 b1 a1 w1 Hent Hnd)
    as (Hchild & Hnd1 & M1 & F1).
  destruct (IH Hnd1) as (Hsub & Hnd' & M2 & F2).
  assert (Hsub1 : ∀ x, x ∈ subtree n1 → x ∈ subtree n).
  { intros x Hx. by eapply descendants_subtree, descendants_children. }
  split; [auto|]. split; [done|]. split.
  - intros k q Hr. apply M1. by apply M2.
  - intros k Hk.
    assert (Hk1 : k ∈ node_id <$> subtree n1).
    { apply list_elem_of_fmap in Hk as (x & -> & Hx).
      by apply list_elem_of_fmap_2, Hsub. }
    destruct (F2 k Hk) as [E1 E2]. destruct (F1 k Hk1) as [E3 E4].
    unfold call_result in *. cbn [fst snd] in *.
    split; [by rewrite E1|by rewrite E4].
Qed.

(** The run of the call on the parent of a group: once the branch is
    taken the later alternatives are recorded but not entered, and the
    loop goes on after the end node with the flag set again. *)
Lemma group_result tree p parent aP wP pre S alts E post aS wS :
  NoDup (node_id <$> subtree parent) →
  children parent = pre ++ S :: alts ++ E :: post →
  enters name evaluate_for_platform tree p parent aP wP pre S true aS wS →
  is_start_node S = true ∨ is_cont_node S = true →
  (evaluate_for_platform S p (filename (root tree)) wS).1 = Some true →
  Forall (fun c => is_end_node c = false) alts →
  is_end_node E = true →
  (∀ C d, C ∈ alts → d ∈ descendants C →
     (assoc_nodes tree parent p true aP wP).1.2 !! node_id d
     = aP !! node_id d) ∧
  (Forall (plain evaluate_for_platform p (filename (root tree)))
          (descendants S) →
   (∀ d, d ∈ descendants S →
      recorded (assoc_nodes tree parent p true aP wP).1.2 (node_id d) (name p)) ∧
   ∃ a1 w1,
     (∀ C d, C ∈ alts → d ∈ descendants C →
        a1 !! node_id d = aP !! node_id d) ∧
     assoc_nodes tree parent p true aP wP =
       match assoc_children tree post p true a1 w1 with
       | (Raised, a2, w2) => (Raised, a2, w2)
       | (Returned _, a2, w2) => (Returned true, a2, w2)
       end).
Proof.
  intros Hnd Hch (w0 & post' & Hev & Hch' & Hpre) Hkind HS Halts HE.
  assert (Hfresh : ∀ C d, C ∈ alts → d ∈ descendants C →
            (node_id d ∉ node_id parent :: ((node_id <$> (pre ≫= subtree))
              ++ (node_id <$> subtree S) ++ (node_id <$> alts) ++ [node_id E]))
            ∧ (node_id d ∉ node_id <$> (post ≫= subtree))).
  { intros C d HC Hd.
    rewrite subtree_unfold in Hnd. unfold descendants at 1 in Hnd.
    rewrite Hch, bind_app, bind_cons, bind_app, bind_cons in Hnd.
    rewrite fmap_cons, !fmap_app in Hnd.
    assert (Hk : node_id d ∈ node_id <$> (alts ≫= subtree)).
    { apply list_elem_of_fmap_2, list_elem_of_bind. exists C.
      split; [by apply descendants_subtree|done]. }
    destruct (NoDup_middle _ _ _ _ _ _ _ Hnd Hk)
      as (Hx & HA & HB & HD & HF & HC').
    split; [|done].
    rewrite not_elem_of_cons, !not_elem_of_app. repeat split; try done.
    - by eapply sibling_descendant_fresh.
    - intros Hin. apply HD. apply list_elem_of_singleton in Hin.
      rewrite Hin. apply list_elem_of_fmap_2, subtree_self. }
  set (a0 := NodeAssociationMap_add_platform aP parent (name p)) in *.
  pose proof (extends_within_add aP parent (name p)) as X0. fold a0 in X0.
  pose proof (associate_children_extends tree pre p true a0 w0) as X1.
  rewrite Hpre in X1. cbn [fst snd] in X1.
  pose proof (_associate_nodes_extends tree S p true aS wS) as X2.
  pose proof (applicable_outcome tree S p aS wS HS) as Hout.
  assert (Hrun : assoc_nodes tree parent p true aP wP =
            match assoc_nodes tree S p true aS wS with
            | (Raised, a2, w2) => (Raised, a2, w2)
            | (Returned _, a2, w2) =>
                match assoc_children tree post p true
                        (NodeAssociationMap_add_platform
                           (foldl (fun m c =>
                                     NodeAssociationMap_add_platform m c (name p))
                                  a2 alts) E (name p)) w2 with
                | (Raised, a3, w3) => (Raised, a3, w3)
                | (Returned _, a3, w3) => (Returned true, a3, w3)
                end
            end).
  { rewrite (_associate_nodes_unfold tree parent). cbv zeta. rewrite Hev.
    fold a0. rewrite Hch, associate_children_app, Hpre.
    cbn [associate_children].
    destruct (assoc_nodes tree S p true aS wS) as [[[r|] a2] w2];
      cbn [fst] in Hout; [|done].
    destruct Hout as [[= ->]|?]; [|done].
    unfold next_process_child at 1.
    assert (Hsc : is_start_node S || is_cont_node S = true).
    { destruct Hkind as [-> | ->]; [done|]. by destruct (is_start_node S). }
    rewrite Hsc. cbn [andb].
    rewrite associate_children_skip by done.
    cbn [associate_children]. rewrite _associate_nodes_skip.
    unfold next_process_child. rewrite HE. done. }
  assert (Hgroup : ∀ a2,
            (assoc_nodes tree S p true aS wS).1.2 = a2 →
            extends_within
              (node_id parent :: ((node_id <$> (pre ≫= subtree))
                 ++ (node_id <$> subtree S) ++ (node_id <$> alts) ++ [node_id E]))
              aP
              (NodeAssociationMap_add_platform
                 (foldl (fun m c => NodeAssociationMap_add_platform m c (name p))
                        a2 alts) E (name p))).
  { intros a2 <-.
    pose proof (skipped_extends alts p (assoc_nodes tree S p true aS wS).1.2)
      as X3.
    pose proof (extends_within_add
                  (foldl (fun m c => NodeAssociationMap_add_platform m c (name p))
                         (assoc_nodes tree S p true aS wS).1.2 alts)
                  E (name p)) as X4.
    eapply extends_within_trans; [| |exact X0|].
    3: eapply extends_within_trans; [| |exact X1|].
    5: eapply extends_within_trans; [| |exact X2|].
    7: eapply extends_within_trans; [| |exact X3|exact X4].
    all: set_solver. }
  split.
  - intros C d HC Hd. destruct (Hfresh C d HC Hd) as [H1 H2].
    rewrite Hrun.
    destruct (assoc_nodes tree S p true aS wS) as [[[r|] a2] w2] eqn:ES.
    + destruct (Hgroup a2 eq_refl) as [F4 _].
      pose proof (associate_children_extends tree post p true
                    (NodeAssociationMap_add_platform
                       (foldl (fun m c =>
                                 NodeAssociationMap_add_platform m c (name p))
                              a2 alts) E (name p)) w2) as [F5 _].
      destruct (assoc_children tree post p true _ w2) as [[[b|] a3] w3];
        cbn [fst snd] in *; by rewrite F5, F4.
    + cbn [fst snd] in *. destruct X0 as [F0 _], X1 as [F1 _], X2 as [F2 _].
      rewrite not_elem_of_cons, !not_elem_of_app in H1.
      destruct H1 as (Hp & Hpre' & HS' & _).
      rewrite F2, F1, F0; [done|..]; try done.
      by intros ?%list_elem_of_singleton.
  - intros Hplain.
    destruct (_associate_nodes_processed_at tree S p aS wS HS Hplain)
      as (a2 & w2 & ES & R2).
    rewrite ES in Hrun. destruct (Hgroup a2) as [F4 M4]; [by rewrite ES|].
    split.
    + intros d Hd. rewrite Hrun.
      pose proof (associate_children_extends tree post p true
                    (NodeAssociationMap_add_platform
                       (foldl (fun m c =>
                                 NodeAssociationMap_add_platform m c (name p))
                              a2 alts) E (name p)) w2) as [_ M5].
      assert (Hrec : recorded
                (NodeAssociationMap_add_platform
                   (foldl (fun m c =>
                             NodeAssociationMap_add_platform m c (name p))
                          a2 alts) E (name p)) (node_id d) (name p)).
      { apply add_platform_mono. apply (skipped_extends alts p a2).
        by apply R2, descendants_subtree. }
      destruct (assoc_children tree post p true _ w2) as [[[b|] a3] w3];
        cbn [fst snd] in *; by apply M5.
    + eexists _, w2. split; [|exact Hrun].
      intros C d HC Hd. destruct (Hfresh C d HC Hd) as [H1 _].
      by apply F4.
Qed.

(** Three ways in which the loop of an applicable parent gets to a child
    with the flag set: the child is the first one; the children before
    it are unconditional nodes; or the child before it ends a group and
    the loop has come that far. *)
Lemma enters_first tree p node a w w0 S post :
  evaluate_for_platform node p (filename (root tree)) w = (Some true, w0) →
  children node = S :: post →
  enters name evaluate_for_platform tree p node a w [] S true
    (NodeAssociationMap_add_platform a node (name p)) w0.
Proof. intros Hev Hch. by exists w0, post. Qed.

Lemma enters_after_plain tree p node a w w0 pre S post :
  evaluate_for_platform node p (filename (root tree)) w = (Some true, w0) →
  children node = pre ++ S :: post →
  Forall (plain evaluate_for_platform p (filename (root tree)))
         (pre ≫= subtree) →
  ∃ aS wS,
    enters name evaluate_for_platform tree p node a w pre S true aS wS.
Proof.
  intros Hev Hch Hpre.
  destruct (associate_children_processed tree pre p
              (NodeAssociationMap_add_platform a node (name p)) w0 Hpre)
    as (aS & wS & Hrun & _).
  exists aS, wS, w0, post. done.
Qed.

Lemma enters_after_end tree p node a w w0 pre E' S post b aS wS :
  evaluate_for_platform node p (filename (root tree)) w = (Some true, w0) →
  children node = (pre ++ [E']) ++ S :: post →
  is_end_node E' = true →
  is_start_node E' = false →
  is_cont_node E' = false →
  assoc_children tree (pre ++ [E']) p true
    (NodeAssociationMap_add_platform a node (name p)) w0
  = (Returned b, aS, wS) →
  enters name evaluate_for_platform tree p node a w (pre ++ [E']) S true
    aS wS.
Proof.
  intros Hev Hch He Hs Hc Hrun. exists w0, post.
  split; [done|]. split; [done|]. rewrite Hrun.
  rewrite associate_children_app in Hrun.
  destruct (assoc_children tree pre p true _ w0) as [[[f|] a1] w1]; [|done].
  cbn [associate_children] in Hrun.
  destruct (assoc_nodes tree E' p f a1 w1) as [[[cp|] a2] w2]; [|done].
  unfold next_process_child in Hrun. rewrite He, Hs, Hc in Hrun.
  injection Hrun as <- _ _. by destruct cp, f.
Qed.

(** C1. Mutual exclusion of branch groups.  Take any call of a pass, the
    walk of a tree being the call on its root, and any parent that this
    call gets to in the course of its run, with a group among the
    children of the parent: a node that starts (or continues) the group
    and that the loop of the parent reaches with the flag set, the later
    alternatives, and the node that ends the group.  If the capability
    answers applicable for the first node in the world where the pass
    asks it, then the pass leaves the record of every descendant of every
    later alternative as it was before the pass, whatever the
    alternative would answer; and if the descendants of the taken branch
    are unconditional nodes, the pass records the platform on all of
    them, and the loop of the parent goes on after the end node with the
    flag set again. *)
Theorem mutual_exclusion tree p top pc0 a0 w0 parent aP wP
    pre S alts E post aS wS :
  NoDup (node_id <$> subtree top) →
  reaches name evaluate_for_platform tree p
    (top, pc0, a0, w0) (parent, true, aP, wP) →
  children parent = pre ++ S :: alts ++ E :: post →
  enters name evaluate_for_platform tree p parent aP wP pre S true aS wS →
  is_start_node S = true ∨ is_cont_node S = true →
  (evaluate_for_platform S p (filename (root tree)) wS).1 = Some true →
  Forall (fun c => is_end_node c = false) alts →
  is_end_node E = true →
  let r := assoc_nodes tree top p pc0 a0 w0 in
  (∀ C d, C ∈ alts → d ∈ descendants C →
     NodeAssociationMap_get_association r.1.2 d
     = NodeAssociationMap_get_association a0 d) ∧
  (Forall (plain evaluate_for_platform p (filename (root tree)))
          (descendants S) →
   (∀ d, d ∈ descendants S → recorded r.1.2 (node_id d) (name p)) ∧
   ∃ a1 w1,
     (∀ C d, C ∈ alts → d ∈ descendants C →
        NodeAssociationMap_get_association a1 d
        = NodeAssociationMap_get_association a0 d) ∧
     assoc_nodes tree parent p true aP wP =
       match assoc_children tree post p true a1 w1 with
       | (Raised, a2, w2) => (Raised, a2, w2)
       | (Returned _, a2, w2) => (Returned true, a2, w2)
       end) ∧
  (top = root tree → pc0 = true →
     (TreeAssociator_walk name evaluate_for_platform tree p a0 w0).1.2 = r.1.2).
Proof.
  intros Hnd Hreach Hch Hent Hkind HS Halts HE r.
  destruct (reaches_result tree p _ _ Hreach Hnd) as (Hsub & HndP & M & F).
  unfold call_result in M, F. cbn [fst snd] in Hsub, HndP, M, F.
  destruct (group_result tree p parent aP wP pre S alts E post aS wS
              HndP Hch Hent Hkind HS Halts HE) as [Hskip Htaken].
  assert (Hinside : ∀ C d, C ∈ alts → d ∈ descendants C →
            node_id d ∈ node_id <$> subtree parent).
  { intros C d HC Hd. apply list_elem_of_fmap_2.
    eapply descendants_subtree, descendants_children;
      [|by apply descendants_subtree].
    rewrite Hch. apply elem_of_app. right. apply elem_of_cons. right.
    apply elem_of_app. by left. }
  split; [|split].
  - intros C d HC Hd. unfold NodeAssociationMap_get_association.
    destruct (F _ (Hinside C d HC Hd)) as [E1 E2].
    unfold r. by rewrite E2, (Hskip C d HC Hd).
  - intros Hplain. destruct (Htaken Hplain) as (Hrec & a1 & w1 & Ha1 & Hrun).
    split; [intros d Hd; by apply M, Hrec|].
    exists a1, w1. split; [|exact Hrun].
    intros C d HC Hd. unfold NodeAssociationMap_get_association.
    destruct (F _ (Hinside C d HC Hd)) as [E1 _].
    by rewrite (Ha1 C d HC Hd).
  - intros -> ->. unfold TreeAssociator_walk, r.
    by destruct (assoc_nodes tree (root tree) p true a0 w0) as [[[?|] ?] ?].
Qed.

Lemma record_calls_app (a : NodeAssociationMap) l1 l2 :
  record_calls (record_calls a l1) l2 = record_calls a (l1 ++ l2).
Proof. unfold record_calls. by rewrite foldl_app. Qed.

Lemma associate_children_calls_aux tree cs p :
  Forall (fun c => ∀ pc a w, ∃ calls,
    (assoc_nodes tree c p pc a w).1.2 = record_calls a calls ∧
    Forall (fun c => c.2 = name p) calls) cs →
  ∀ pc a w, ∃ calls,
    (assoc_children tree cs p pc a w).1.2 = record_calls a calls ∧
    Forall (fun c => c.2 = name p) calls.
Proof.
  induction 1 as [|c cs Hc _ IH]; intros pc a w.
  { by exists []. }
  cbn [associate_children]. destruct (Hc pc a w) as (l1 & E1 & F1).
  destruct (assoc_nodes tree c p pc a w) as [[[r|] a1] w1]; cbn [fst snd] in *.
  - destruct (IH (next_process_child pc r c) a1 w1) as (l2 & E2 & F2).
    exists (l1 ++ l2). rewrite <- record_calls_app, <- E1.
    split; [exact E2|by apply Forall_app].
  - by exists l1.
Qed.

(** All a pass does to the map is a sequence of recordings of its own
    platform. *)
Lemma _associate_nodes_calls tree node p : ∀ pc a w, ∃ calls,
  (assoc_nodes tree node p pc a w).1.2 = record_calls a calls ∧
  Forall (fun c => c.2 = name p) calls.
Proof.
  induction node as [node IH] using Node_ind. intros pc a w.
  rewrite _associate_nodes_unfold. cbv zeta.
  assert (Hone : ∃ calls,
            NodeAssociationMap_add_platform a node (name p)
            = record_calls a calls ∧ Forall (fun c => c.2 = name p) calls).
  { exists [(node, name p)]. split; [done|]. by repeat constructor. }
  destruct pc; [|done].
  destruct (evaluate_for_platform _ _ _ _) as [[[|]|] w1]; try done.
  destruct (associate_children_calls_aux tree (children node) p IH true
              (NodeAssociationMap_add_platform a node (name p)) w1)
    as (l2 & E2 & F2).
  exists ((node, name p) :: l2). split; [|by constructor].
  destruct (assoc_children _ _ _ _ _ _) as [[[r|] a2] w2]; exact E2.
Qed.

(** C6. Unconditional recording on visit: whatever the flag and
    whatever the evaluation answers, the node a pass is invoked on
    carries the platform afterwards.  It is recorded by the first
    statement, before the evaluation: when the flag is off, when the
    node does not apply, and when the evaluation fails, the map left
    behind is the incoming map with the platform added on this one node,
    so that no other node, its descendants included, is touched. *)
Theorem recorded_on_visit tree node p pc a w :
  let r := assoc_nodes tree node p pc a w in
  let a1 := NodeAssociationMap_add_platform a node (name p) in
  recorded r.1.2 (node_id node) (name p) ∧
  (pc = false → r = (Returned false, a1, w)) ∧
  (∀ w1, pc = true →
     evaluate_for_platform node p (filename (root tree)) w = (Some false, w1) →
     r = (Returned false, a1, w1)) ∧
  (∀ w1, pc = true →
     evaluate_for_platform node p (filename (root tree)) w = (None, w1) →
     r = (Raised, a1, w1)) ∧
  recorded a1 (node_id node) (name p) ∧
  (∀ d, node_id d ≠ node_id node →
     NodeAssociationMap_get_association a1 d
     = NodeAssociationMap_get_association a d).
Proof.
  intros r a1. repeat split.
  - apply _associate_nodes_records.
  - intros ->. apply _associate_nodes_skip.
  - intros w1 -> Hev. unfold r. rewrite _associate_nodes_unfold.
    cbv zeta. by rewrite Hev.
  - intros w1 -> Hev. unfold r. rewrite _associate_nodes_unfold.
    cbv zeta. by rewrite Hev.
  - apply add_platform_recorded.
  - intros d Hd. by apply add_platform_lookup_ne.
Qed.

(** C8. Association records only grow: a platform recorded against a
    node stays recorded under [prepare_node], [add_platform], any pass of
    the associator (also one that ends in a failure) and the walk of a
    tree; adding a platform that is already present changes neither the
    record nor the map.  [get_association] and the mapper only read. *)
Theorem association_records_only_grow :
  (∀ (m : NodeAssociationMap) n k q,
     recorded m k q → recorded (NodeAssociationMap_prepare_node m n) k q) ∧
  (∀ (m : NodeAssociationMap) n p k q,
     recorded m k q → recorded (NodeAssociationMap_add_platform m n p) k q) ∧
  (∀ a p q, q ∈ platforms a → q ∈ platforms (NodeAssociation_add_platform a p)) ∧
  (∀ tree node p pc a w k q,
     recorded a k q → recorded (assoc_nodes tree node p pc a w).1.2 k q) ∧
  (∀ tree p a w k q,
     recorded a k q →
     recorded (TreeAssociator_walk name evaluate_for_platform tree p a w).1.2
              k q) ∧
  (∀ a p, p ∈ platforms a → NodeAssociation_add_platform a p = a) ∧
  (∀ (m : NodeAssociationMap) n p,
     recorded m (node_id n) p → NodeAssociationMap_add_platform m n p = m).
Proof.
  repeat split.
  - intros m n k q. apply prepare_node_mono.
  - intros m n p k q. apply add_platform_mono.
  - intros a p q Hq. rewrite NodeAssociation_add_platform_platforms.
    apply elem_of_union. by left.
  - intros tree node p pc a w k q.
    apply (_associate_nodes_extends tree node p pc a w).
  - intros tree p a w k q Hr. unfold TreeAssociator_walk.
    pose proof (_associate_nodes_extends tree (root tree) p true a w) as [_ Hm].
    destruct (assoc_nodes tree (root tree) p true a w) as [[[?|] ?] ?];
      by apply Hm.
  - apply NodeAssociation_add_platform_idem.
  - apply NodeAssociationMap_add_platform_idem.
Qed.
End AssociatorFacts.

(** ** Sums over dictionaries of counts *)

Section MapSum.
Context `{Countable K}.
Implicit Types m : gmap K Z.

Lemma map_sum_empty : map_sum (∅ : gmap K Z) = 0%Z.
Proof. apply map_fold_empty. Qed.

Lemma map_sum_insert_None m k v :
  m !! k = None → map_sum (<[k:=v]> m) = (v + map_sum m)%Z.
Proof.
  intros Hk. unfold map_sum.
  apply (map_fold_insert_L (fun _ v acc => (v + acc)%Z)); [|done].
  intros; lia.
Qed.

Lemma map_sum_insert m k v :
  map_sum (<[k:=v]> m) = (map_sum m - default 0 (m !! k) + v)%Z.
Proof.
  destruct (m !! k) as [v0|] eqn:E; simpl.
  - rewrite <- (insert_delete_eq m k v).
    rewrite <- (insert_delete_id m k v0 E) at 2.
    rewrite !map_sum_insert_None by apply lookup_delete_eq. lia.
  - rewrite map_sum_insert_None by done. lia.
Qed.

Lemma map_sum_iadd m k n :
  map_sum (defaultdict_iadd k n m) = (map_sum m + n)%Z.
Proof. unfold defaultdict_iadd. rewrite map_sum_insert. lia. Qed.

Lemma map_sum_set_if_absent m k : map_sum (set_if_absent k 0%Z m) = map_sum m.
Proof.
  unfold set_if_absent. destruct (m !! k) eqn:E; [done|].
  by rewrite map_sum_insert_None.
Qed.
End MapSum.

Lemma lookup_set_if_absent_eq `{Countable K} {V} (m : gmap K V) k v :
  set_if_absent k v m !! k = Some (default v (m !! k)).
Proof.
  unfold set_if_absent. destruct (m !! k) eqn:E; [by rewrite E|].
  by rewrite lookup_insert_eq.
Qed.

Lemma lookup_set_if_absent_ne `{Countable K} {V} (m : gmap K V) k k' v :
  k ≠ k' → set_if_absent k v m !! k' = m !! k'.
Proof.
  intros Hne. unfold set_if_absent. destruct (m !! k); [done|].
  by rewrite lookup_insert_ne.
Qed.

(** ** Accounting one code node *)

Lemma account_codebase self fn S n : codebase (account self fn S n) = codebase self.
Proof. done. Qed.

Lemma account_line_map self fn S n S' :
  line_map (account self fn S n) !! S' =
  if decide (S = S') then Some (default 0 (line_map self !! S) + n)%Z
  else line_map self !! S'.
Proof.
  unfold account, defaultdict_iadd. cbn [line_map].
  destruct (decide (S = S')) as [->|Hne].
  - by rewrite lookup_insert_eq.
  - by rewrite lookup_insert_ne.
Qed.

Lemma account_file_map_eq self fn S n :
  file_map (account self fn S n) !! S =
  Some (defaultdict_iadd fn n
          (set_if_absent fn 0%Z (default ∅ (file_map self !! S)))).
Proof.
  unfold account. cbn [file_map].
  by rewrite !lookup_alter_eq, lookup_set_if_absent_eq.
Qed.

Lemma account_file_map_ne self fn S n S' :
  S ≠ S' → file_map (account self fn S n) !! S' = file_map self !! S'.
Proof.
  intros Hne. unfold account. cbn [file_map].
  rewrite !lookup_alter_ne by done. by apply lookup_set_if_absent_ne.
Qed.

Lemma account_consistent self fn S n :
  consistent self → consistent (account self fn S n).
Proof.
  intros Hc S'. rewrite account_line_map.
  destruct (decide (S = S')) as [<-|Hne].
  - rewrite account_file_map_eq. simpl.
    rewrite map_sum_iadd, map_sum_set_if_absent. specialize (Hc S).
    by destruct (file_map self !! S); rewrite Hc.
  - rewrite account_file_map_ne by done. apply Hc.
Qed.

Lemma PlatformMapper_init_consistent cb : consistent (PlatformMapper_init cb).
Proof. intros S. simpl. by rewrite !lookup_empty. Qed.

(** ** The mapper as a fold over the code nodes it reaches *)

Lemma mapped_nodes_unfold cb n :
  mapped_nodes cb n =
  if is_file_node n && negb (bool_decide (filename n ∈ files cb)) then []
  else (if is_code_node n then [n] else []) ++ (children n ≫= mapped_nodes cb).
Proof. by destruct n. Qed.

Lemma _map_node_unfold self fn n mp :
  _map_node self fn n mp =
  if is_file_node n && negb (bool_decide (filename n ∈ files (codebase self)))
  then self
  else foldl (fun s c => _map_node s fn c mp)
         (if is_code_node n
          then account self fn (platform_key mp n) (lines_of n) else self)
         (children n).
Proof.
  destruct n as [i ty f nl s c e cs]. cbn [_map_node].
  destruct (is_file_node _ && _); [done|]. f_equal.
  unfold is_code_node, platform_key, lines_of. cbn [num_lines].
  destruct nl as [lines|]; [|done].
  destruct (negb _); [|done].
  by destruct (NodeAssociationMap_get_association mp _).
Qed.

Lemma foldl_account_codebase {A} (f : A → string * gset string * Z) self l :
  codebase (foldl (fun s x => account s (f x).1.1 (f x).1.2 (f x).2) self l)
  = codebase self.
Proof.
  revert self. induction l as [|x l IH]; intros self; [done|].
  cbn [foldl]. by rewrite IH.
Qed.

Lemma _map_node_mapped fn mp n : ∀ self,
  _map_node self fn n mp =
  foldl (fun s x => account s fn (platform_key mp x) (lines_of x)) self
        (mapped_nodes (codebase self) n).
Proof.
  induction n as [n IH] using Node_ind. intros self.
  rewrite _map_node_unfold, mapped_nodes_unfold.
  destruct (is_file_node n && _); [done|].
  rewrite foldl_app.
  set (self1 := if is_code_node n
                then account self fn (platform_key mp n) (lines_of n) else self).
  assert (Hcb : codebase self1 = codebase self).
  { unfold self1. by destruct (is_code_node n). }
  replace (foldl _ self (if is_code_node n then [n] else [])) with self1
    by (unfold self1; by destruct (is_code_node n)).
  rewrite <- Hcb. clearbody self1. clear Hcb. revert self1.
  induction IH as [|c cs Hc _ IHcs]; intros self1; [done|].
  rewrite bind_cons, foldl_app. cbn [foldl]. rewrite Hc.
  rewrite IHcs. f_equal.
  by rewrite (foldl_account_codebase
                (fun x => (fn, platform_key mp x, lines_of x))).
Qed.

Lemma _map_node_codebase self fn n mp :
  codebase (_map_node self fn n mp) = codebase self.
Proof.
  rewrite _map_node_mapped.
  apply (foldl_account_codebase (fun x => (fn, platform_key mp x, lines_of x))).
Qed.

Lemma _map_node_consistent self fn n mp :
  consistent self → consistent (_map_node self fn n mp).
Proof.
  rewrite _map_node_mapped. generalize (mapped_nodes (codebase self) n).
  intros l. revert self. induction l as [|x l IH]; intros self Hc; [done|].
  cbn [foldl]. by apply IH, account_consistent.
Qed.

(** Below a node without file nodes the mapper reaches every code node. *)
Lemma mapped_nodes_code cb n :
  Forall (fun x => is_file_node x = false) (subtree n) →
  mapped_nodes cb n = filter (fun x => is_code_node x = true) (subtree n).
Proof.
  induction n as [n IH] using Node_ind. intros Hnf.
  rewrite mapped_nodes_unfold. rewrite subtree_unfold in Hnf |- *.
  apply Forall_cons in Hnf as [Hn Hdesc]. rewrite Hn. cbn [andb].
  rewrite filter_cons. unfold descendants in *.
  assert (Hcs : children n ≫= mapped_nodes cb
                = filter (fun x => is_code_node x = true) (children n ≫= subtree)).
  { induction IH as [|c cs Hc _ IHcs]; [done|].
    rewrite bind_cons, Forall_app in Hdesc. destruct Hdesc as [H1 H2].
    rewrite !bind_cons, filter_app, Hc, IHcs; done. }
  rewrite Hcs. destruct (is_code_node n); by case_decide.
Qed.

Lemma mapped_nodes_file_tree cb fn t :
  file_tree fn t →
  mapped_nodes cb (root t) = if bool_decide (fn ∈ files cb) then code_nodes t else [].
Proof.
  intros (Hroot & Hfn & Hdesc). rewrite mapped_nodes_unfold, Hroot, Hfn.
  destruct (bool_decide (fn ∈ files cb)); [|done]. cbn [andb negb].
  unfold code_nodes. rewrite subtree_unfold, filter_cons.
  assert (Hnc : is_code_node (root t) = false).
  { unfold is_code_node. rewrite Hroot. by destruct (num_lines (root t)). }
  rewrite Hnc. destruct (decide (false = true)); [done|]. cbn [app].
  unfold descendants in *. revert Hdesc.
  induction (children (root t)) as [|c cs IH]; intros Hdesc; [done|].
  rewrite bind_cons, Forall_app in Hdesc. destruct Hdesc as [H1 H2].
  by rewrite !bind_cons, filter_app, mapped_nodes_code, IH.
Qed.

Lemma sum_lines_app l1 l2 : sum_lines (l1 ++ l2) = (sum_lines l1 + sum_lines l2)%Z.
Proof.
  unfold sum_lines. induction l1 as [|x l1 IH]; cbn [app foldr]; lia.
Qed.

Lemma foldl_bind {A B C} (f : A → C → A) (g : B → list C) (l : list B) : ∀ a,
  foldl f a (l ≫= g) = foldl (fun a b => foldl f a (g b)) a l.
Proof.
  induction l as [|b l IH]; intros a; [done|].
  by rewrite bind_cons, foldl_app, IH.
Qed.

Lemma foldl_account_node_codebase st l self :
  codebase (foldl (account_node st) self l) = codebase self.
Proof.
  apply (foldl_account_codebase
           (fun x => (x.1, platform_key (get_map st x.1) x.2, lines_of x.2))).
Qed.

(** The loop of [walk] over the files counts the code nodes of the
    in-codebase files, file after file. *)
Lemma walk_files_mapped st l : ∀ self,
  (∀ fn, fn ∈ l → file_tree fn (get_tree st fn)) →
  foldl (fun self fn =>
           _map_node self fn (root (get_tree st fn)) (get_map st fn)) self l
  = foldl (account_node st) self
      (fn ← filter (fun fn => fn ∈ files (codebase self)) l;
       (fun n => (fn, n)) <$> code_nodes (get_tree st fn)).
Proof.
  induction l as [|fn l IH]; intros self Hwf; [done|].
  cbn [foldl]. rewrite IH by (intros ? ?; apply Hwf; set_solver).
  rewrite _map_node_codebase, _map_node_mapped.
  rewrite (mapped_nodes_file_tree _ fn) by (apply Hwf; set_solver).
  rewrite filter_cons.
  destruct (decide (fn ∈ files (codebase self))) as [Hin|Hout].
  - rewrite bool_decide_eq_true_2 by done.
    rewrite bind_cons, foldl_app. f_equal. by rewrite foldl_fmap.
  - by rewrite bool_decide_eq_false_2 by done.
Qed.

Lemma walk_fresh cb st :
  well_formed st →
  (PlatformMapper_walk (PlatformMapper_init cb) st).1
  = foldl (account_node st) (PlatformMapper_init cb) (all_code_nodes cb st).
Proof.
  intros Hwf. unfold PlatformMapper_walk. cbn [fst].
  rewrite bool_decide_eq_true_2 by done.
  by rewrite walk_files_mapped.
Qed.

Lemma walk_consistent self st :
  consistent self → consistent (PlatformMapper_walk self st).1.
Proof.
  intros Hc. unfold PlatformMapper_walk. cbn [fst].
  destruct (bool_decide (line_map self = ∅)); [|done].
  revert self Hc. induction (get_filenames st) as [|fn l IH]; intros self Hc;
    [done|].
  cbn [foldl]. by apply IH, _map_node_consistent.
Qed.

Lemma walk_files_codebase st l : ∀ self,
  codebase (foldl (fun self fn =>
              _map_node self fn (root (get_tree st fn)) (get_map st fn)) self l)
  = codebase self.
Proof.
  induction l as [|fn l IH]; intros self; [done|].
  cbn [foldl]. by rewrite IH, _map_node_codebase.
Qed.

Lemma walk_codebase self st :
  codebase (PlatformMapper_walk self st).1 = codebase self.
Proof.
  unfold PlatformMapper_walk. cbn [fst].
  destruct (bool_decide (line_map self = ∅)); [|done].
  apply walk_files_codebase.
Qed.

(** ** Keys after a sequence of recordings *)

Lemma platform_key_default (m : NodeAssociationMap) x :
  platform_key m x = default ∅ (platforms <$> (m !! node_id x)).
Proof.
  unfold platform_key, NodeAssociationMap_get_association.
  by destruct (m !! node_id x).
Qed.

Lemma platform_key_add (m : NodeAssociationMap) n p x :
  platform_key (NodeAssociationMap_add_platform m n p) x =
  if decide (node_id x = node_id n) then platform_key m x ∪ {[ p ]}
  else platform_key m x.
Proof.
  rewrite !platform_key_default.
  destruct (decide (node_id x = node_id n)) as [->|Hne].
  - by rewrite add_platform_lookup_eq.
  - by rewrite add_platform_lookup_ne.
Qed.

Lemma platform_key_record_calls calls n : ∀ m : NodeAssociationMap,
  platform_key (record_calls m calls) n
  = platform_key m n ∪ list_to_set (names_for n calls).
Proof.
  unfold record_calls, names_for.
  induction calls as [|c calls IH]; intros m.
  { cbn. set_solver. }
  cbn [foldl]. rewrite IH, platform_key_add, filter_cons.
  destruct (decide (node_id c.1 = node_id n)) as [Hc|Hc].
  - rewrite decide_True by done. rewrite fmap_cons. cbn [list_to_set].
    set_solver.
  - by rewrite decide_False by done.
Qed.

(** ** What a fold of [account_node] leaves in the two maps *)

Section Accounted.
Variable st : State.

Lemma accounted_map_sum l : ∀ self,
  map_sum (line_map (foldl (account_node st) self l))
  = (map_sum (line_map self) + sum_lines l.*2)%Z.
Proof.
  induction l as [|x l IH]; intros self.
  { cbn. lia. }
  cbn [foldl]. rewrite IH. unfold account_node, account.
  cbn [line_map]. rewrite map_sum_iadd.
  rewrite fmap_cons. unfold sum_lines. cbn [foldr]. lia.
Qed.

Lemma accounted_line_map S l : ∀ self,
  line_map (foldl (account_node st) self l) !! S =
  let lS := filter (fun x => platform_key (get_map st x.1) x.2 = S) l in
  if decide (lS = []) then line_map self !! S
  else Some (default 0 (line_map self !! S) + sum_lines lS.*2)%Z.
Proof.
  cbv zeta. induction l as [|x l IH]; intros self; [done|].
  cbn [foldl]. rewrite IH. unfold account_node.
  rewrite account_line_map, filter_cons.
  destruct (decide (platform_key (get_map st x.1) x.2 = S)) as [Hx|Hx].
  - rewrite (decide_False (P := x :: _ = [])) by done. rewrite Hx.
    destruct (decide (filter _ l = [])) as [->|_]; f_equal;
      rewrite fmap_cons; unfold sum_lines;
      cbn [default id foldr fmap list_fmap]; lia.
  - done.
Qed.

Lemma account_file_count self fn S n S' fn' :
  file_map (account self fn S n) !! S' ≫= (.!! fn') =
  if decide (S = S' ∧ fn = fn')
  then Some (default 0 (file_map self !! S' ≫= (.!! fn')) + n)%Z
  else file_map self !! S' ≫= (.!! fn').
Proof.
  destruct (decide (S = S')) as [<-|HS].
  - rewrite account_file_map_eq. cbn [mbind option_bind].
    assert (Hold : ∀ f, default ∅ (file_map self !! S) !! f
                        = file_map self !! S ≫= (.!! f)).
    { intros f. by destruct (file_map self !! S). }
    unfold defaultdict_iadd.
    destruct (decide (fn = fn')) as [<-|Hfn].
    + rewrite decide_True by done.
      by rewrite lookup_insert_eq, lookup_set_if_absent_eq, Hold.
    + rewrite decide_False by (intros [_ ?]; done).
      by rewrite lookup_insert_ne, lookup_set_if_absent_ne, Hold.
  - rewrite decide_False by (intros [? _]; done).
    by rewrite account_file_map_ne.
Qed.

Lemma accounted_file_map S fn l : ∀ self,
  file_map (foldl (account_node st) self l) !! S ≫= (.!! fn) =
  let lSf := filter (fun x => x.1 = fn)
               (filter (fun x => platform_key (get_map st x.1) x.2 = S) l) in
  if decide (lSf = []) then file_map self !! S ≫= (.!! fn)
  else Some (default 0 (file_map self !! S ≫= (.!! fn)) + sum_lines lSf.*2)%Z.
Proof.
  cbv zeta. induction l as [|x l IH]; intros self; [done|].
  cbn [foldl]. rewrite IH. unfold account_node.
  rewrite account_file_count, (filter_cons _ x l).
  destruct (decide (platform_key (get_map st x.1) x.2 = S)) as [Hx|Hx].
  - rewrite filter_cons. destruct (decide (x.1 = fn)) as [Hf|Hf].
    + rewrite (decide_True (P := _ ∧ _)) by done.
      rewrite (decide_False (P := x :: _ = [])) by done.
      destruct (decide (filter _ (filter _ l) = [])) as [->|_]; f_equal;
        rewrite fmap_cons; unfold sum_lines;
        cbn [default id foldr fmap list_fmap]; lia.
    + by rewrite (decide_False (P := _ ∧ _)) by (intros [_ ?]; done).
  - by rewrite (decide_False (P := _ ∧ _)) by (intros [? _]; done).
Qed.
End Accounted.

(** * The properties of the mapper *)

(** C3. Conservation of lines: after the walk of a fresh mapper, the
    values of the line map add up to the lines of all code nodes of all
    in-codebase files; the count under each key is the sum over the code
    nodes whose platform set is that key, and every code node is counted
    under its own key and no other. *)
Theorem conservation_of_lines cb st :
  well_formed st →
  let r := PlatformMapper_walk (PlatformMapper_init cb) st in
  map_sum r.2.1 = total_code_lines cb st ∧
  (∀ S, default 0%Z (r.2.1 !! S) = sum_lines (nodes_with_key cb st S).*2) ∧
  (∀ x S, x ∈ all_code_nodes cb st →
     x ∈ nodes_with_key cb st S ↔ S = platform_key (get_map st x.1) x.2).
Proof.
  intros Hwf r.
  assert (Hr : r.2.1 = line_map
            (foldl (account_node st) (PlatformMapper_init cb) (all_code_nodes cb st))).
  { by rewrite <- walk_fresh. }
  rewrite Hr. repeat split.
  - rewrite accounted_map_sum. cbn [line_map PlatformMapper_init].
    rewrite (map_sum_empty (K:=gset string)). unfold total_code_lines. lia.
  - intros S. rewrite accounted_line_map. cbv zeta.
    fold (nodes_with_key cb st S).
    destruct (decide (nodes_with_key cb st S = [])) as [->|_]; [done|].
    cbn [line_map PlatformMapper_init]. rewrite lookup_empty. cbn. lia.
  - intros Hin. apply list_elem_of_filter in Hin as [Hk _]. by rewrite Hk.
  - intros ->. by apply list_elem_of_filter.
Qed.

(** C10. The two maps agree after the walk: they have the same keys, and
    under every key the total of the line map is the sum of the per-file
    counts of the file map.  The walk keeps this for any mapper that has
    it, and a fresh mapper has it. *)
Theorem line_map_file_map_consistent cb st :
  let r := PlatformMapper_walk (PlatformMapper_init cb) st in
  dom r.2.1 = dom r.2.2 ∧
  (∀ S, r.2.1 !! S = map_sum <$> (r.2.2 !! S)) ∧
  (∀ self st', consistent self → consistent (PlatformMapper_walk self st').1).
Proof.
  intros r.
  assert (Hc : consistent r.1)
    by apply walk_consistent, PlatformMapper_init_consistent.
  change r.2.1 with (line_map r.1). change r.2.2 with (file_map r.1).
  repeat split.
  - apply set_eq. intros S. rewrite !elem_of_dom, (Hc S).
    by rewrite fmap_is_Some.
  - exact Hc.
  - apply walk_consistent.
Qed.

(** C4. Idempotence of aggregation: walking the same state a second time
    returns the maps of the first walk and leaves the mapper as it was;
    and a mapper whose line map has entries returns its maps untouched,
    whatever the state. *)
Theorem aggregation_idempotent cb st :
  let first := PlatformMapper_walk (PlatformMapper_init cb) st in
  PlatformMapper_walk first.1 st = first ∧
  (∀ self st', line_map self ≠ ∅ →
     PlatformMapper_walk self st' = (self, (line_map self, file_map self))).
Proof.
  intros first. split.
  - assert (Hc : consistent first.1)
      by apply walk_consistent, PlatformMapper_init_consistent.
    assert (Hcb : codebase first.1 = cb) by apply walk_codebase.
    destruct (decide (line_map first.1 = ∅)) as [He|Hne].
    + assert (Hf : file_map first.1 = ∅).
      { apply map_eq. intros S. specialize (Hc S). rewrite He in Hc.
        rewrite !lookup_empty in *. by destruct (file_map first.1 !! S). }
      assert (Hinit : first.1 = PlatformMapper_init cb).
      { destruct (first.1) as [cb' lm fm]. simpl in *. by subst. }
      by rewrite Hinit.
    + unfold PlatformMapper_walk at 1.
      by rewrite bool_decide_eq_false_2 by done.
  - intros self st' Hne. unfold PlatformMapper_walk.
    by rewrite bool_decide_eq_false_2 by done.
Qed.

(** C5. Unassociated attribution: a code node of an in-codebase file for
    which the association map answers [None] is one of the nodes counted
    under the empty platform set; the empty set is then a key of both
    maps, the line map holds under it the lines of those nodes, and the
    file map holds under it, for the file of the node, the lines of those
    of them that are in that file. *)
Theorem unassociated_attribution cb st fn n :
  well_formed st → fn ∈ get_filenames st → fn ∈ files cb →
  n ∈ code_nodes (get_tree st fn) →
  NodeAssociationMap_get_association (get_map st fn) n = None →
  let r := PlatformMapper_walk (PlatformMapper_init cb) st in
  (fn, n) ∈ nodes_with_key cb st _null_set ∧
  (fn, n) ∈ nodes_with_key_in cb st _null_set fn ∧
  r.2.1 !! _null_set = Some (sum_lines (nodes_with_key cb st _null_set).*2) ∧
  ∃ per_file,
    r.2.2 !! _null_set = Some per_file ∧
    per_file !! fn = Some (sum_lines (nodes_with_key_in cb st _null_set fn).*2).
Proof.
  intros Hwf Hfn Hcb Hn Hnone r.
  assert (Hall : (fn, n) ∈ nodes_with_key cb st _null_set).
  { apply list_elem_of_filter. split.
    - unfold platform_key. cbn [fst snd]. by rewrite Hnone.
    - apply list_elem_of_bind. exists fn. split.
      + by apply list_elem_of_fmap_2.
      + by apply list_elem_of_filter. }
  assert (Hin : (fn, n) ∈ nodes_with_key_in cb st _null_set fn).
  { by apply list_elem_of_filter. }
  assert (Hr : r.1 = foldl (account_node st) (PlatformMapper_init cb)
                       (all_code_nodes cb st)) by by apply walk_fresh.
  change r.2.1 with (line_map r.1). change r.2.2 with (file_map r.1).
  rewrite Hr. split; [done|]. split; [done|]. split.
  - rewrite accounted_line_map. cbv zeta. fold (nodes_with_key cb st _null_set).
    destruct (decide (nodes_with_key cb st _null_set = [])) as [He|_].
    { rewrite He in Hall. by apply elem_of_nil in Hall. }
    cbn [line_map PlatformMapper_init]. by rewrite lookup_empty.
  - pose proof (accounted_file_map st _null_set fn (all_code_nodes cb st)
                  (PlatformMapper_init cb)) as Hf.
    cbv zeta in Hf. fold (nodes_with_key cb st _null_set) in Hf.
    fold (nodes_with_key_in cb st _null_set fn) in Hf.
    destruct (decide (nodes_with_key_in cb st _null_set fn = [])) as [He|_].
    { rewrite He in Hin. by apply elem_of_nil in Hin. }
    cbn [file_map PlatformMapper_init] in Hf. rewrite lookup_empty in Hf.
    cbn [mbind option_bind default] in Hf.
    destruct (file_map _ !! _null_set) as [per_file|]; [|done].
    exists per_file. split; [done|]. cbn [mbind option_bind] in Hf.
    by rewrite Hf.
Qed.

(** C9. Codebase filtering: mapping the tree of a file whose path is not
    in the codebase leaves the mapper as it was, whatever the tree holds
    below its file node and whatever the association map; the walk of a
    state gives the same maps as the walk of the state without that
    file. *)
Theorem codebase_filtering cb st fn :
  is_file_node (root (get_tree st fn)) = true →
  filename (root (get_tree st fn)) = fn →
  fn ∉ files cb →
  (∀ self mp, codebase self = cb →
     _map_node self fn (root (get_tree st fn)) mp = self) ∧
  (∀ self l1 l2, codebase self = cb → get_filenames st = l1 ++ fn :: l2 →
     PlatformMapper_walk self st
     = PlatformMapper_walk self (mkState (l1 ++ l2) (get_tree st) (get_map st))).
Proof.
  intros Hroot Hname Hout.
  assert (Hskip : ∀ self mp, codebase self = cb →
            _map_node self fn (root (get_tree st fn)) mp = self).
  { intros self mp Hcb. rewrite _map_node_unfold, Hroot, Hname, Hcb.
    by rewrite bool_decide_eq_false_2. }
  split; [exact Hskip|].
  intros self l1 l2 Hcb Hfiles. unfold PlatformMapper_walk.
  destruct (bool_decide (line_map self = ∅)); [|done].
  cbn [get_filenames get_tree get_map]. rewrite Hfiles, !foldl_app.
  cbn [foldl]. rewrite Hskip; [done|].
  by rewrite walk_files_codebase.
Qed.

(** C7. Set-key order independence: a pass of the associator is a
    sequence of recordings of its platform's name, and the key of a node
    after a sequence of recordings is the set of the names recorded
    against it, added to what it had before; so two sequences that record
    the same names against the node, in any order and any number of
    times, give the same key, and the mapper counts the node under the
    same entries of both maps. *)
Theorem set_key_order_independence (m : NodeAssociationMap) n calls1 calls2 :
  (∀ p, p ∈ names_for n calls1 ↔ p ∈ names_for n calls2) →
  platform_key (record_calls m calls1) n
  = platform_key (record_calls m calls2) n ∧
  (∀ self fn lines,
     account self fn (platform_key (record_calls m calls1) n) lines
     = account self fn (platform_key (record_calls m calls2) n) lines) ∧
  (children n = [] → ∀ self fn,
     _map_node self fn n (record_calls m calls1)
     = _map_node self fn n (record_calls m calls2)) ∧
  (∀ (Platform W : Type) (name : Platform → string)
     (evaluate_for_platform : Node → Platform → string → W → option bool * W)
     tree p a w,
     ∃ calls,
       (TreeAssociator_walk name evaluate_for_platform tree p a w).1.2
       = record_calls a calls ∧
       Forall (fun c => c.2 = name p) calls).
Proof.
  intros Hsame.
  assert (Hkey : platform_key (record_calls m calls1) n
                 = platform_key (record_calls m calls2) n).
  { rewrite !platform_key_record_calls. f_equal. apply set_eq. intros p.
    rewrite !elem_of_list_to_set. apply Hsame. }
  split; [done|]. split; [|split].
  - intros self fn lines. by rewrite Hkey.
  - intros Hch self fn. rewrite !_map_node_unfold, Hch, Hkey. done.
  - intros Platform W name evaluate_for_platform tree p a w.
    destruct (_associate_nodes_calls name evaluate_for_platform tree (root tree)
                p true a w) as (calls & E & F).
    exists calls. split; [|done]. unfold TreeAssociator_walk.
    by destruct (_associate_nodes _ _ _ _ _ _ _ _) as [[[?|] ?] ?].
Qed.

(** * The end-to-end scenario *)

Section Scenario.
Context {Platform W : Type}.
Variable name : Platform -> string.
Variable evaluate_for_platform :
  Node -> Platform -> string -> W -> option bool * W.
Variable fn : string.

Local Abbreviation assoc_nodes := (_associate_nodes name evaluate_for_platform).
Local Abbreviation applies := (applicable evaluate_for_platform).

Lemma associate_leaf tree n p a w :
  children n = [] → applies p (filename (root tree)) n →
  ∃ w', assoc_nodes tree n p true a w
        = (Returned true, NodeAssociationMap_add_platform a n (name p), w').
Proof.
  intros Hch Happ. rewrite _associate_nodes_unfold. cbv zeta.
  specialize (Happ w).
  destruct (evaluate_for_platform _ _ _ _) as [r w']. simpl in Happ. subst r.
  rewrite Hch. by exists w'.
Qed.

Lemma associate_not_applicable tree n p a w :
  (evaluate_for_platform n p (filename (root tree)) w).1 = Some false →
  ∃ w', assoc_nodes tree n p true a w
        = (Returned false, NodeAssociationMap_add_platform a n (name p), w').
Proof.
  intros Hev. rewrite _associate_nodes_unfold. cbv zeta.
  destruct (evaluate_for_platform _ _ _ _) as [r w']. simpl in Hev. subst r.
  by exists w'.
Qed.

Lemma associate_applicable tree n p a w :
  applies p (filename (root tree)) n →
  ∃ w', assoc_nodes tree n p true a w =
    match associate_children name evaluate_for_platform tree (children n) p
            true (NodeAssociationMap_add_platform a n (name p)) w' with
    | (Raised, a2, w2) => (Raised, a2, w2)
    | (Returned _, a2, w2) => (Returned true, a2, w2)
    end.
Proof.
  intros Happ. rewrite _associate_nodes_unfold. cbv zeta.
  specialize (Happ w).
  destruct (evaluate_for_platform _ _ _ _) as [r w']. simpl in Happ. subst r.
  by exists w'.
Qed.

Hypothesis others_apply : ∀ p n,
  n ∈ [scenario_root fn; scenario_prologue; scenario_if_body; scenario_else;
       scenario_else_body; scenario_epilogue] →
  applies p fn n.

Lemma scenario_pass_taken p a w :
  applies p fn scenario_if →
  ∃ w', TreeAssociator_walk name evaluate_for_platform (scenario_tree fn) p a w
        = (Returned tt, record_calls a (scenario_calls_taken fn (name p)), w').
Proof.
  intros Hif. unfold TreeAssociator_walk.
  change (root (scenario_tree fn)) with (scenario_root fn).
  destruct (associate_applicable (scenario_tree fn) (scenario_root fn) p a w)
    as [w1 ->]; [apply others_apply; set_solver|].
  cbn [scenario_root children associate_children].
  edestruct (associate_leaf (scenario_tree fn) scenario_prologue p) as [w2 ->];
    [done|apply others_apply; set_solver|].
  edestruct (associate_applicable (scenario_tree fn) scenario_if p) as [w3 ->];
    [exact Hif|].
  cbn [scenario_if children associate_children].
  edestruct (associate_leaf (scenario_tree fn) scenario_if_body p) as [w4 ->];
    [done|apply others_apply; set_solver|].
  cbn [next_process_child scenario_if_body scenario_prologue code_node
       is_start_node is_cont_node is_end_node andb orb negb].
  rewrite !_associate_nodes_skip.
  cbn [next_process_child scenario_else scenario_endif
       is_start_node is_cont_node is_end_node andb orb negb].
  edestruct (associate_leaf (scenario_tree fn) scenario_epilogue p) as [w5 ->];
    [done|apply others_apply; set_solver|].
  by exists w5.
Qed.

Lemma scenario_pass_not_taken p a w :
  (∀ w, (evaluate_for_platform scenario_if p fn w).1 = Some false) →
  ∃ w', TreeAssociator_walk name evaluate_for_platform (scenario_tree fn) p a w
        = (Returned tt, record_calls a (scenario_calls_not_taken fn (name p)), w').
Proof.
  intros Hif. unfold TreeAssociator_walk.
  change (root (scenario_tree fn)) with (scenario_root fn).
  destruct (associate_applicable (scenario_tree fn) (scenario_root fn) p a w)
    as [w1 ->]; [apply others_apply; set_solver|].
  cbn [scenario_root children associate_children].
  edestruct (associate_leaf (scenario_tree fn) scenario_prologue p) as [w2 ->];
    [done|apply others_apply; set_solver|].
  edestruct (associate_not_applicable (scenario_tree fn) scenario_if p)
    as [w3 ->]; [apply Hif|].
  cbn [next_process_child scenario_if scenario_prologue code_node
       is_start_node is_cont_node is_end_node andb orb negb].
  edestruct (associate_applicable (scenario_tree fn) scenario_else p) as [w4 ->];
    [apply others_apply; set_solver|].
  cbn [scenario_else children associate_children].
  edestruct (associate_leaf (scenario_tree fn) scenario_else_body p) as [w5 ->];
    [done|apply others_apply; set_solver|].
  cbn [next_process_child scenario_else_body code_node
       is_start_node is_cont_node is_end_node andb orb negb].
  rewrite !_associate_nodes_skip.
  cbn [next_process_child scenario_endif
       is_start_node is_cont_node is_end_node andb orb negb].
  edestruct (associate_leaf (scenario_tree fn) scenario_epilogue p) as [w6 ->];
    [done|apply others_apply; set_solver|].
  by exists w6.
Qed.
End Scenario.

Lemma scenario_well_formed fn m : well_formed (scenario_state fn m).
Proof.
  intros f Hf. apply list_elem_of_singleton in Hf as ->.
  split; [done|]. split; [done|]. cbn. repeat constructor.
Qed.

Lemma account_single_file fn self S n :
  file_map self = (fun v => {[ fn := v ]}) <$> line_map self →
  file_map (account self fn S n)
  = (fun v => {[ fn := v ]}) <$> line_map (account self fn S n).
Proof.
  intros Hone. apply map_eq. intros S'.
  rewrite lookup_fmap, account_line_map.
  destruct (decide (S = S')) as [<-|Hne].
  - rewrite account_file_map_eq, Hone, lookup_fmap. cbn [fmap option_fmap option_map].
    f_equal. unfold defaultdict_iadd.
    destruct (line_map self !! S) as [v|];
      cbn [fmap option_fmap option_map default id].
    + rewrite lookup_set_if_absent_eq, lookup_singleton_eq. cbn [default].
      unfold set_if_absent. rewrite lookup_singleton_eq.
      by rewrite insert_singleton_eq.
    + rewrite lookup_set_if_absent_eq, lookup_empty. cbn [default].
      unfold set_if_absent. rewrite lookup_empty.
      by rewrite insert_insert_eq, insert_empty.
  - by rewrite account_file_map_ne, Hone, lookup_fmap.
Qed.

Lemma accounted_single_file st fn l : ∀ self,
  Forall (fun x => x.1 = fn) l →
  file_map self = (fun v => {[ fn := v ]}) <$> line_map self →
  file_map (foldl (account_node st) self l)
  = (fun v => {[ fn := v ]}) <$> line_map (foldl (account_node st) self l).
Proof.
  induction l as [|x l IH]; intros self Hl Hone; [done|].
  apply Forall_cons in Hl as [Hx Hl]. cbn [foldl]. apply IH; [done|].
  unfold account_node. rewrite Hx. by apply account_single_file.
Qed.

Lemma accounted_line_map_fold st l : ∀ self,
  line_map (foldl (account_node st) self l)
  = foldl (fun lm x =>
             defaultdict_iadd (platform_key (get_map st x.1) x.2)
                              (lines_of x.2) lm)
          (line_map self) l.
Proof. induction l as [|x l IH]; intros self; [done|]. cbn [foldl]. by rewrite IH. Qed.

Lemma three_way_counts `{Countable K} (K12 K1 K2 : K) :
  K12 ≠ K1 → K12 ≠ K2 → K1 ≠ K2 →
  defaultdict_iadd K12 1
    (defaultdict_iadd K2 2 (defaultdict_iadd K1 5 (defaultdict_iadd K12 3 ∅)))
  = {[ K12 := 4%Z; K1 := 5%Z; K2 := 2%Z ]}.
Proof.
  intros H1 H2 H3. unfold defaultdict_iadd.
  rewrite lookup_empty. cbn [default].
  rewrite (lookup_insert_ne _ K12 K1), lookup_empty by done. cbn [default].
  rewrite (lookup_insert_ne _ K1 K2), (lookup_insert_ne _ K12 K2), lookup_empty
    by done.
  cbn [default].
  rewrite (lookup_insert_ne _ K2 K12), (lookup_insert_ne _ K1 K12),
    lookup_insert_eq by done.
  cbn [default].
  apply map_eq. intros k.
  destruct (decide (k = K12)) as [->|?]; [by rewrite !lookup_insert_eq|].
  destruct (decide (k = K2)) as [->|?]; [|destruct (decide (k = K1)) as [->|?]];
    repeat first
      [ rewrite lookup_insert_eq
      | rewrite lookup_insert_ne by done
      | rewrite lookup_singleton_eq
      | rewrite lookup_singleton_ne by done
      | rewrite lookup_empty ];
    done.
Qed.

Lemma scenario_keys_distinct :
  ({[ "p1"; "p2" ]} : gset string) ≠ {[ "p1" ]} ∧
  ({[ "p1"; "p2" ]} : gset string) ≠ {[ "p2" ]} ∧
  ({[ "p1" ]} : gset string) ≠ {[ "p2" ]}.
Proof.
  repeat split; intros Heq.
  - assert (Hin : "p2" ∈ ({[ "p1" ]} : gset string))
      by (rewrite <- Heq; apply elem_of_union; right; by apply elem_of_singleton).
    by apply elem_of_singleton in Hin.
  - assert (Hin : "p1" ∈ ({[ "p2" ]} : gset string))
      by (rewrite <- Heq; apply elem_of_union; left; by apply elem_of_singleton).
    by apply elem_of_singleton in Hin.
  - assert (Hin : "p1" ∈ ({[ "p2" ]} : gset string))
      by (rewrite <- Heq; by apply elem_of_singleton).
    by apply elem_of_singleton in Hin.
Qed.

(** The maps of the scenario, from the keys of its four code nodes. *)
Lemma scenario_maps fn (a2 : NodeAssociationMap) :
  platform_key a2 scenario_prologue = {[ "p1"; "p2" ]} →
  platform_key a2 scenario_if_body = {[ "p1" ]} →
  platform_key a2 scenario_else_body = {[ "p2" ]} →
  platform_key a2 scenario_epilogue = {[ "p1"; "p2" ]} →
  let r := PlatformMapper_walk (PlatformMapper_init (mkCodebase [fn]))
             (scenario_state fn a2) in
  r.2.1 = {[ ({[ "p1"; "p2" ]} : gset string) := 4%Z;
             {[ "p1" ]} := 5%Z; {[ "p2" ]} := 2%Z ]} ∧
  r.2.2 = {[ ({[ "p1"; "p2" ]} : gset string) := ({[ fn := 4%Z ]} : gmap string Z);
             {[ "p1" ]} := {[ fn := 5%Z ]}; {[ "p2" ]} := {[ fn := 2%Z ]} ]}.
Proof.
  intros K1 K2 K3 K4 r.
  assert (Hnodes : all_code_nodes (mkCodebase [fn]) (scenario_state fn a2)
            = (fun n => (fn, n)) <$>
                [scenario_prologue; scenario_if_body; scenario_else_body;
                 scenario_epilogue]).
  { unfold all_code_nodes, codebase_files.
    cbn [get_filenames files scenario_state].
    rewrite filter_cons, decide_True by (apply elem_of_cons; by left).
    rewrite filter_nil, bind_cons. cbn [mbind list_bind]. by rewrite app_nil_r. }
  assert (Hr : r.1 = foldl (account_node (scenario_state fn a2))
                       (PlatformMapper_init (mkCodebase [fn]))
                       (all_code_nodes (mkCodebase [fn]) (scenario_state fn a2)))
    by apply walk_fresh, scenario_well_formed.
  assert (Hlm : line_map r.1 = {[ ({[ "p1"; "p2" ]} : gset string) := 4%Z;
                                  {[ "p1" ]} := 5%Z; {[ "p2" ]} := 2%Z ]}).
  { rewrite Hr, accounted_line_map_fold, Hnodes.
    cbn [fmap list_fmap foldl fst snd scenario_state get_map].
    rewrite K1, K2, K3, K4.
    apply three_way_counts; apply scenario_keys_distinct. }
  split; [exact Hlm|].
  change r.2.2 with (file_map r.1). rewrite Hr in Hlm |- *.
  rewrite (accounted_single_file (scenario_state fn a2) fn).
  - rewrite Hlm. by rewrite !fmap_insert, map_fmap_singleton.
  - rewrite Hnodes. repeat constructor.
  - cbn [file_map line_map PlatformMapper_init]. by rewrite fmap_empty.
Qed.

(** C2. End-to-end scenario: on the file of the scenario, with [A]
    applicable on platform "p1" and not on "p2" and every other node
    applicable, one pass per platform on a fresh association map followed
    by the walk of a fresh mapper gives the line map
    [{p1,p2} -> 4, {p1} -> 5, {p2} -> 2] and the file map with the same
    counts under the path of the file. *)
Theorem end_to_end_scenario {Platform W : Type} (name : Platform -> string)
    (evaluate_for_platform : Node -> Platform -> string -> W -> option bool * W)
    (fn : string) (p1 p2 : Platform) (w0 : W) :
  name p1 = "p1" → name p2 = "p2" →
  applicable evaluate_for_platform p1 fn scenario_if →
  (∀ w, (evaluate_for_platform scenario_if p2 fn w).1 = Some false) →
  (∀ p n,
     n ∈ [scenario_root fn; scenario_prologue; scenario_if_body; scenario_else;
          scenario_else_body; scenario_epilogue] →
     applicable evaluate_for_platform p fn n) →
  let tree := scenario_tree fn in
  let pass1 := TreeAssociator_walk name evaluate_for_platform tree p1
                 NodeAssociationMap_init w0 in
  let pass2 := TreeAssociator_walk name evaluate_for_platform tree p2
                 pass1.1.2 pass1.2 in
  let state := mkState [fn] (fun _ => tree) (fun _ => pass2.1.2) in
  let r := PlatformMapper_walk (PlatformMapper_init (mkCodebase [fn])) state in
  pass1.1.1 = Returned tt ∧ pass2.1.1 = Returned tt ∧
  r.2.1 = {[ ({[ "p1"; "p2" ]} : gset string) := 4%Z;
             {[ "p1" ]} := 5%Z; {[ "p2" ]} := 2%Z ]} ∧
  r.2.2 = {[ ({[ "p1"; "p2" ]} : gset string) := ({[ fn := 4%Z ]} : gmap string Z);
             {[ "p1" ]} := {[ fn := 5%Z ]}; {[ "p2" ]} := {[ fn := 2%Z ]} ]}.
Proof.
  intros Hp1 Hp2 Hif1 Hif2 Hothers tree pass1 pass2 state r.
  destruct (scenario_pass_taken name evaluate_for_platform fn Hothers p1
              NodeAssociationMap_init w0 Hif1) as [w1 E1].
  destruct (scenario_pass_not_taken name evaluate_for_platform fn Hothers p2
              (record_calls NodeAssociationMap_init
                 (scenario_calls_taken fn (name p1))) w1 Hif2) as [w2 E2].
  rewrite Hp1 in E1, E2. rewrite Hp2 in E2.
  assert (Epass1 : pass1 = (Returned tt,
            record_calls NodeAssociationMap_init (scenario_calls_taken fn "p1"),
            w1)) by exact E1.
  assert (Epass2 : pass2 = (Returned tt,
            record_calls
              (record_calls NodeAssociationMap_init (scenario_calls_taken fn "p1"))
              (scenario_calls_not_taken fn "p2"), w2)).
  { unfold pass2. rewrite Epass1. exact E2. }
  split; [by rewrite Epass1|]. split; [by rewrite Epass2|].
  apply (scenario_maps fn pass2.1.2); rewrite Epass2; cbn [fst snd];
    vm_compute; reflexivity.
Qed.

(** * Worked instances on the scenario *)


Lemma mutual_exclusion_witness :
  let walked := (TreeAssociator_walk id scenario_evaluate (nested_tree "f.c")
                   "p1" NodeAssociationMap_init tt).1.2 in
  recorded walked (node_id nested_if_body) "p1" ∧
  NodeAssociationMap_get_association walked nested_else_body = None.
Proof.
  set (aP := NodeAssociationMap_add_platform NodeAssociationMap_init
               (nested_root "f.c") "p1").
  set (aS := (associate_children id scenario_evaluate (nested_tree "f.c")
                [nested_first_if; nested_first_endif] "p1" true
                (NodeAssociationMap_add_platform aP nested_outer_if "p1")
                tt).1.2).
  destruct (mutual_exclusion id scenario_evaluate (nested_tree "f.c") "p1"
              (nested_root "f.c") true NodeAssociationMap_init tt
              nested_outer_if aP tt
              [nested_first_if; nested_first_endif] nested_if [nested_else]
              nested_endif [nested_epilogue] aS tt)
    as (Hskipped & Htaken & Hwalk).
  - apply (bool_decide_unpack _). vm_compute. exact I.
  - apply rtc_once. split; [reflexivity|].
    exists [], tt, [nested_outer_endif].
    split; [reflexivity|]. split; reflexivity.
  - reflexivity.
  - exists tt, [nested_else; nested_endif; nested_epilogue].
    split; [reflexivity|]. split; [reflexivity|].
    vm_compute. reflexivity.
  - by left.
  - reflexivity.
  - repeat constructor.
  - reflexivity.
  - intros walked. unfold walked. rewrite (Hwalk eq_refl eq_refl). split.
    + apply Htaken; [repeat constructor|]. apply elem_of_cons. by left.
    + rewrite (Hskipped nested_else nested_else_body).
      * reflexivity.
      * apply elem_of_cons. by left.
      * apply elem_of_cons. by left.
Defined.

Lemma end_to_end_scenario_witness :
  let pass1 := TreeAssociator_walk id scenario_evaluate (scenario_tree "src/f.c")
                 "p1" NodeAssociationMap_init tt in
  let pass2 := TreeAssociator_walk id scenario_evaluate (scenario_tree "src/f.c")
                 "p2" pass1.1.2 pass1.2 in
  let r := PlatformMapper_walk (PlatformMapper_init (mkCodebase ["src/f.c"]))
             (mkState ["src/f.c"] (fun _ => scenario_tree "src/f.c")
                      (fun _ => pass2.1.2)) in
  r.2.1 = {[ ({[ "p1"; "p2" ]} : gset string) := 4%Z;
             {[ "p1" ]} := 5%Z; {[ "p2" ]} := 2%Z ]}.
Proof.
  apply (end_to_end_scenario id scenario_evaluate "src/f.c" "p1" "p2" tt).
  - reflexivity.
  - reflexivity.
  - intros w. reflexivity.
  - intros w. reflexivity.
  - intros p n Hn w.
    repeat (apply elem_of_cons in Hn as [->|Hn]; [reflexivity|]).
    by apply elem_of_nil in Hn.
Defined.

Lemma conservation_of_lines_witness :
  well_formed (scenario_state "f.c" NodeAssociationMap_init) ∧
  map_sum (PlatformMapper_walk (PlatformMapper_init (mkCodebase ["f.c"]))
             (scenario_state "f.c" NodeAssociationMap_init)).2.1
  = total_code_lines (mkCodebase ["f.c"])
      (scenario_state "f.c" NodeAssociationMap_init).
Proof.
  split; [apply scenario_well_formed|].
  apply (conservation_of_lines (mkCodebase ["f.c"])
           (scenario_state "f.c" NodeAssociationMap_init)).
  apply scenario_well_formed.
Defined.

Lemma unassociated_attribution_witness :
  NodeAssociationMap_get_association NodeAssociationMap_init scenario_prologue
  = None ∧
  (PlatformMapper_walk (PlatformMapper_init (mkCodebase ["f.c"]))
     (scenario_state "f.c" NodeAssociationMap_init)).2.1 !! _null_set
  = Some (sum_lines
            (nodes_with_key (mkCodebase ["f.c"])
               (scenario_state "f.c" NodeAssociationMap_init) _null_set).*2).
Proof.
  split; [reflexivity|].
  apply (unassociated_attribution (mkCodebase ["f.c"])
           (scenario_state "f.c" NodeAssociationMap_init) "f.c"
           scenario_prologue).
  - apply scenario_well_formed.
  - apply elem_of_cons. by left.
  - apply elem_of_cons. by left.
  - apply list_elem_of_here.
  - reflexivity.
Defined.

Lemma set_key_order_independence_witness :
  platform_key
    (record_calls NodeAssociationMap_init
       [(scenario_prologue, "linux"); (scenario_prologue, "mac")])
    scenario_prologue
  = platform_key
      (record_calls NodeAssociationMap_init
         [(scenario_prologue, "mac"); (scenario_prologue, "linux")])
      scenario_prologue.
Proof.
  apply (set_key_order_independence NodeAssociationMap_init scenario_prologue
           [(scenario_prologue, "linux"); (scenario_prologue, "mac")]
           [(scenario_prologue, "mac"); (scenario_prologue, "linux")]).
  intros p. vm_compute names_for.
  rewrite !elem_of_cons, !elem_of_nil. tauto.
Defined.

Lemma codebase_filtering_witness :
  ("f.c" ∉ files (mkCodebase ["g.c"])) ∧
  _map_node (PlatformMapper_init (mkCodebase ["g.c"])) "f.c"
    (root (get_tree (scenario_state "f.c" NodeAssociationMap_init) "f.c"))
    NodeAssociationMap_init
  = PlatformMapper_init (mkCodebase ["g.c"]).
Proof.
  assert (Hout : "f.c" ∉ files (mkCodebase ["g.c"])).
  { apply (bool_decide_unpack _). vm_compute. exact I. }
  split; [exact Hout|].
  apply (codebase_filtering (mkCodebase ["g.c"])
           (scenario_state "f.c" NodeAssociationMap_init) "f.c");
    [reflexivity|reflexivity|exact Hout|reflexivity].
Defined.

Lemma aggregation_idempotent_witness :
  let counted := mkPlatformMapper (mkCodebase ["f.c"]) {[ _null_set := 11%Z ]}
                   {[ _null_set := {[ "f.c" := 11%Z ]} ]} in
  line_map counted ≠ ∅ ∧
  PlatformMapper_walk counted (scenario_state "f.c" NodeAssociationMap_init)
  = (counted, (line_map counted, file_map counted)).
Proof.
  intros counted.
  assert (Hne : line_map counted ≠ ∅) by apply map_non_empty_singleton.
  split; [exact Hne|].
  apply (aggregation_idempotent (mkCodebase ["f.c"])
           (scenario_state "f.c" NodeAssociationMap_init)).
  exact Hne.
Defined.

Lemma recorded_on_visit_witness :
  _associate_nodes id scenario_evaluate (scenario_tree "f.c") scenario_else
    "p1" false NodeAssociationMap_init tt
  = (Returned false,
     NodeAssociationMap_add_platform NodeAssociationMap_init scenario_else "p1",
     tt).
Proof.
  pose proof (recorded_on_visit id scenario_evaluate (scenario_tree "f.c")
                scenario_else "p1" false NodeAssociationMap_init tt) as Hvisit.
  cbv zeta in Hvisit. destruct Hvisit as (_ & Hoff & _).
  apply Hoff. reflexivity.
Defined.

Lemma association_records_only_grow_witness :
  let m := NodeAssociationMap_add_platform NodeAssociationMap_init
             scenario_prologue "linux" in
  recorded m (node_id scenario_prologue) "linux" ∧
  recorded (TreeAssociator_walk id scenario_evaluate (scenario_tree "f.c")
              "mac" m tt).1.2
           (node_id scenario_prologue) "linux".
Proof.
  intros m.
  assert (Hrec : recorded m (node_id scenario_prologue) "linux")
    by apply add_platform_recorded.
  split; [exact Hrec|].
  apply (association_records_only_grow id scenario_evaluate).
  exact Hrec.
Defined.

Lemma line_map_file_map_consistent_witness :
  consistent (PlatformMapper_init (mkCodebase ["f.c"])) ∧
  consistent
    (PlatformMapper_walk (PlatformMapper_init (mkCodebase ["f.c"]))
       (scenario_state "f.c" NodeAssociationMap_init)).1.
Proof.
  assert (Hc : consistent (PlatformMapper_init (mkCodebase ["f.c"])))
    by apply PlatformMapper_init_consistent.
  split; [exact Hc|].
  apply (line_map_file_map_consistent (mkCodebase ["f.c"])
           (scenario_state "f.c" NodeAssociationMap_init)).
  exact Hc.
Defined.

(** * Further properties of the association map and of the associator *)

Lemma lookup_add_platform (m : NodeAssociationMap) n p k :
  NodeAssociationMap_add_platform m n p !! k =
  if decide (k = node_id n)
  then Some (mkNodeAssociation (default ∅ (platforms <$> (m !! k)) ∪ {[ p ]}))
  else m !! k.
Proof.
  destruct (decide (k = node_id n)) as [->|Hne].
  - pose proof (add_platform_lookup_eq m n p) as H.
    destruct (NodeAssociationMap_add_platform m n p !! node_id n) as [[s]|];
      [|done].
    cbn in H. by injection H as ->.
  - by apply add_platform_lookup_ne.
Qed.

Lemma add_platform_comm (m : NodeAssociationMap) n p n' p' :
  NodeAssociationMap_add_platform (NodeAssociationMap_add_platform m n p) n' p'
  = NodeAssociationMap_add_platform (NodeAssociationMap_add_platform m n' p') n p.
Proof.
  apply map_eq. intros k. rewrite !lookup_add_platform.
  destruct (decide (k = node_id n')), (decide (k = node_id n));
    cbn [fmap option_fmap option_map default platforms id]; try done.
  do 2 f_equal. rewrite <- !(assoc_L (∪)). f_equal. apply (comm_L (∪)).
Qed.

Lemma add_platform_twice (m : NodeAssociationMap) n p :
  NodeAssociationMap_add_platform (NodeAssociationMap_add_platform m n p) n p
  = NodeAssociationMap_add_platform m n p.
Proof.
  apply NodeAssociationMap_add_platform_idem, add_platform_recorded.
Qed.

Lemma record_calls_add (l : list (Node * string)) : ∀ (m : NodeAssociationMap) n p,
  record_calls (NodeAssociationMap_add_platform m n p) l
  = NodeAssociationMap_add_platform (record_calls m l) n p.
Proof.
  unfold record_calls. induction l as [|c l IH]; intros m n p; [done|].
  cbn [foldl]. by rewrite add_platform_comm, IH.
Qed.

Lemma record_calls_comm (l1 : list (Node * string)) : ∀ (m : NodeAssociationMap) l2,
  record_calls (record_calls m l1) l2 = record_calls (record_calls m l2) l1.
Proof.
  induction l1 as [|c l1 IH]; intros m l2; [done|].
  change (record_calls m (c :: l1))
    with (record_calls (NodeAssociationMap_add_platform m c.1 c.2) l1).
  change (record_calls (record_calls m l2) (c :: l1))
    with (record_calls
            (NodeAssociationMap_add_platform (record_calls m l2) c.1 c.2) l1).
  by rewrite IH, record_calls_add.
Qed.

Lemma record_calls_twice (l : list (Node * string)) : ∀ m : NodeAssociationMap,
  record_calls (record_calls m l) l = record_calls m l.
Proof.
  induction l as [|c l IH]; intros m; [done|].
  change (record_calls m (c :: l))
    with (record_calls (NodeAssociationMap_add_platform m c.1 c.2) l).
  change (record_calls
            (record_calls (NodeAssociationMap_add_platform m c.1 c.2) l)
            (c :: l))
    with (record_calls
            (NodeAssociationMap_add_platform
               (record_calls (NodeAssociationMap_add_platform m c.1 c.2) l)
               c.1 c.2) l).
  by rewrite <- record_calls_add, add_platform_twice, IH.
Qed.

Lemma visited_unfold e node pc :
  visited e node pc =
  if pc then
    match e node with
    | None => (Raised, [node])
    | Some false => (Returned false, [node])
    | Some true =>
        match visited_children e (children node) true with
        | (Raised, l) => (Raised, node :: l)
        | (Returned _, l) => (Returned true, node :: l)
        end
    end
  else (Returned false, [node]).
Proof.
  destruct node as [i ty f nl s c en cs]. cbn [visited children].
  destruct pc; [|done]. destruct (e _) as [[|]|]; try done.
  match goal with
  | |- match ?F cs true with _ => _ end = _ =>
      assert (HF : ∀ l b, F l b = visited_children e l b)
  end.
  { induction l as [|c0 l IH]; intros b; [done|].
    cbn [visited_children].
    destruct (visited e c0 b) as [[r|] l0]; [|done]. by rewrite IH. }
  by rewrite HF.
Qed.

Lemma visited_in_subtree e node : ∀ pc x,
  x ∈ (visited e node pc).2 → x ∈ subtree node.
Proof.
  induction node as [node IH] using Node_ind. intros pc x.
  rewrite visited_unfold, subtree_unfold.
  assert (Hcs : ∀ b y, y ∈ (visited_children e (children node) b).2 →
                       y ∈ descendants node).
  { unfold descendants. induction IH as [|c cs Hc _ IHcs]; intros b y Hy.
    - by apply elem_of_nil in Hy.
    - cbn [visited_children] in Hy. rewrite bind_cons, elem_of_app.
      pose proof (Hc b y) as Hc'.
      destruct (visited e c b) as [[r|] l]; cbn [snd] in *.
      + specialize (IHcs (next_process_child b r c) y).
        destruct (visited_children e cs (next_process_child b r c)) as [o l'].
        cbn [snd] in *. apply elem_of_app in Hy as [Hy|Hy]; auto.
      + left. by apply Hc'. }
  destruct pc.
  - destruct (e node) as [[|]|]; cbn [snd].
    + specialize (Hcs true).
      destruct (visited_children e (children node) true) as [[?|] l];
        cbn [snd] in *; intros Hx%elem_of_cons; destruct Hx as [->|Hx];
        apply elem_of_cons; auto.
    + intros ->%list_elem_of_singleton. apply elem_of_cons. by left.
    + intros ->%list_elem_of_singleton. apply elem_of_cons. by left.
  - cbn [snd]. intros ->%list_elem_of_singleton. apply elem_of_cons. by left.
Qed.

Lemma no_empty_records_add (m : NodeAssociationMap) n p :
  no_empty_records m → no_empty_records (NodeAssociationMap_add_platform m n p).
Proof.
  intros Hm k a. rewrite lookup_add_platform.
  destruct (decide (k = node_id n)) as [->|Hne]; [|apply Hm].
  intros [= <-]. cbn [platforms]. intros Hempty.
  assert (Hp : p ∈ (∅ : gset string)).
  { rewrite <- Hempty. apply elem_of_union. right. by apply elem_of_singleton. }
  by apply not_elem_of_empty in Hp.
Qed.

Lemma no_empty_records_calls (l : list (Node * string)) : ∀ m : NodeAssociationMap,
  no_empty_records m → no_empty_records (record_calls m l).
Proof.
  induction l as [|c l IH]; intros m Hm; [done|].
  apply (IH (NodeAssociationMap_add_platform m c.1 c.2)).
  by apply no_empty_records_add.
Qed.

Section PureEvaluation.
Context {Platform W : Type}.
Variable name : Platform -> string.
Variable evaluate_for_platform :
  Node -> Platform -> string -> W -> option bool * W.

Local Abbreviation assoc_nodes := (_associate_nodes name evaluate_for_platform).
Local Abbreviation assoc_children :=
  (associate_children name evaluate_for_platform).
Local Abbreviation walk := (TreeAssociator_walk name evaluate_for_platform).

Lemma TreeAssociator_walk_map tree p a w :
  (walk tree p a w).1.2 = (assoc_nodes tree (root tree) p true a w).1.2.
Proof.
  unfold TreeAssociator_walk.
  by destruct (assoc_nodes tree (root tree) p true a w) as [[[?|] ?] ?].
Qed.

Lemma associate_children_visited_aux tree cs p e :
  Forall (fun c => ∀ pc a w,
    (assoc_nodes tree c p pc a w).1
    = ((visited e c pc).1,
       record_calls a (calls_of (name p) (visited e c pc).2))) cs →
  ∀ pc a w,
    (assoc_children tree cs p pc a w).1
    = ((visited_children e cs pc).1,
       record_calls a (calls_of (name p) (visited_children e cs pc).2)).
Proof.
  induction 1 as [|c cs Hc _ IH]; intros pc a w; [done|].
  cbn [associate_children visited_children]. specialize (Hc pc a w).
  destruct (assoc_nodes tree c p pc a w) as [[o a1] w1].
  destruct (visited e c pc) as [o' l]. cbn [fst snd] in Hc.
  injection Hc as -> ->. destruct o' as [r|]; [|done].
  rewrite IH.
  destruct (visited_children e cs (next_process_child pc r c)) as [o2 l2].
  cbn [fst snd]. unfold calls_of. by rewrite fmap_app, record_calls_app.
Qed.

(** With answers that do not depend on the world, a pass returns what
    [visited] returns and records its platform on the nodes of that
    list. *)
Lemma _associate_nodes_visited tree node p e :
  answers evaluate_for_platform p (filename (root tree)) e →
  ∀ pc a w,
    (assoc_nodes tree node p pc a w).1
    = ((visited e node pc).1,
       record_calls a (calls_of (name p) (visited e node pc).2)).
Proof.
  intros He. induction node as [node IH] using Node_ind. intros pc a w.
  rewrite _associate_nodes_unfold, visited_unfold. cbv zeta.
  destruct pc; [|done].
  specialize (He node w).
  destruct (evaluate_for_platform _ _ _ _) as [r w1]. cbn [fst] in He. subst r.
  destruct (e node) as [[|]|]; try done.
  pose proof (associate_children_visited_aux tree (children node) p e IH true
                (NodeAssociationMap_add_platform a node (name p)) w1) as Hcs.
  destruct (assoc_children _ _ _ _ _ _) as [[o a2] w2].
  destruct (visited_children e (children node) true) as [o' l].
  cbn [fst snd] in Hcs. injection Hcs as -> ->. by destruct o'.
Qed.

Lemma walk_visited tree p e a w :
  answers evaluate_for_platform p (filename (root tree)) e →
  (walk tree p a w).1.2
  = record_calls a (calls_of (name p) (visited e (root tree) true).2).
Proof.
  intros He. rewrite TreeAssociator_walk_map.
  by rewrite (_associate_nodes_visited tree (root tree) p e He).
Qed.

Lemma associate_children_returned tree cs p : ∀ pc a w b a' w',
  assoc_children tree cs p pc a w = (Returned b, a', w') →
  ∀ c, c ∈ cs → recorded a' (node_id c) (name p).
Proof.
  induction cs as [|c0 cs IH]; intros pc a w b a' w' Hrun c Hc.
  { by apply elem_of_nil in Hc. }
  cbn [associate_children] in Hrun.
  pose proof (_associate_nodes_records name evaluate_for_platform
                tree c0 p pc a w) as Hrec.
  destruct (assoc_nodes tree c0 p pc a w) as [[[r|] a1] w1]; [|done].
  cbn [fst snd] in Hrec.
  apply elem_of_cons in Hc as [->|Hc]; [|by eapply IH].
  pose proof (associate_children_extends name evaluate_for_platform tree cs p
                (next_process_child pc r c0) a1 w1) as [_ Hm].
  rewrite Hrun in Hm. by apply Hm.
Qed.

(** X1. A pass writes inside its tree only: the record of a node whose
    identity is not one of the tree's is the same before and after the
    walk, also when the walk ends in a failure. *)
Theorem pass_writes_inside_tree tree p a w k :
  k ∉ node_id <$> subtree (root tree) →
  (walk tree p a w).1.2 !! k = a !! k.
Proof.
  intros Hk. rewrite TreeAssociator_walk_map.
  by apply (_associate_nodes_extends name evaluate_for_platform).
Qed.

(** X2. What a true return value means: a call returns true only when it
    was allowed to look at its children and the node evaluated applicable,
    and then every direct child carries the platform afterwards, the
    alternatives that were not entered included. *)
Theorem processed_node_children_recorded tree node p pc a w :
  (assoc_nodes tree node p pc a w).1.1 = Returned true →
  pc = true ∧
  (evaluate_for_platform node p (filename (root tree)) w).1 = Some true ∧
  ∀ c, c ∈ children node →
    recorded (assoc_nodes tree node p pc a w).1.2 (node_id c) (name p).
Proof.
  rewrite _associate_nodes_unfold. cbv zeta. destruct pc; [|done].
  destruct (evaluate_for_platform _ _ _ _) as [[[|]|] w1]; try done.
  pose proof (associate_children_returned tree (children node) p true
                (NodeAssociationMap_add_platform a node (name p)) w1) as Hcs.
  destruct (assoc_children _ _ _ _ _ _) as [[[b|] a2] w2]; [|done].
  intros _. split; [done|]. split; [done|].
  intros c Hc. by eapply Hcs.
Qed.

(** X3. A pass never leaves an empty record: if no record of the map is
    empty before a walk, none is after it, whether the walk returns or
    fails.  An empty record only comes from [prepare_node] used alone. *)
Theorem passes_leave_no_empty_record tree p a w :
  no_empty_records a →
  no_empty_records (walk tree p a w).1.2 ∧
  ¬ no_empty_records
      (NodeAssociationMap_prepare_node NodeAssociationMap_init (root tree)).
Proof.
  intros Ha. split.
  - rewrite TreeAssociator_walk_map.
    destruct (_associate_nodes_calls name evaluate_for_platform tree (root tree)
                p true a w) as (calls & -> & _).
    by apply no_empty_records_calls.
  - intros Hne.
    apply (Hne (node_id (root tree)) NodeAssociation_init); [|done].
    unfold NodeAssociationMap_prepare_node, NodeAssociationMap_init.
    by rewrite lookup_empty, lookup_insert_eq.
Qed.

(** X4. The outcome of a pass does not depend on the map it starts from:
    with answers that do not depend on the world, two passes of a platform
    over a tree return the same value and make the same recordings,
    whatever the maps and the worlds they start from. *)
Theorem pass_independent_of_map tree node p e pc a w a' w' :
  answers evaluate_for_platform p (filename (root tree)) e →
  (assoc_nodes tree node p pc a w).1.1 = (assoc_nodes tree node p pc a' w').1.1 ∧
  ∃ calls,
    (assoc_nodes tree node p pc a w).1.2 = record_calls a calls ∧
    (assoc_nodes tree node p pc a' w').1.2 = record_calls a' calls ∧
    Forall (fun c => c.2 = name p ∧ c.1 ∈ subtree node) calls.
Proof.
  intros He.
  rewrite !(_associate_nodes_visited tree node p e He). split; [done|].
  exists (calls_of (name p) (visited e node pc).2).
  split; [done|]. split; [done|].
  apply Forall_forall. intros c Hc.
  apply list_elem_of_fmap in Hc as (x & -> & Hx). split; [done|].
  cbn [fst]. by eapply visited_in_subtree.
Qed.

(** X5. Walking a tree again for the same platform changes nothing: with
    answers that do not depend on the world, the map after a second walk
    is the map after the first. *)
Theorem repeated_pass_changes_nothing tree p e a w w' :
  answers evaluate_for_platform p (filename (root tree)) e →
  (walk tree p (walk tree p a w).1.2 w').1.2 = (walk tree p a w).1.2.
Proof.
  intros He. rewrite !(walk_visited tree p e) by done.
  apply record_calls_twice.
Qed.

(** X6. The order of the platforms does not matter: with answers that do
    not depend on the world, walking a tree for one platform and then for
    another leaves the map that the walks in the other order leave. *)
Theorem passes_commute tree p1 p2 e1 e2 a w1 w2 w3 w4 :
  answers evaluate_for_platform p1 (filename (root tree)) e1 →
  answers evaluate_for_platform p2 (filename (root tree)) e2 →
  (walk tree p2 (walk tree p1 a w1).1.2 w2).1.2
  = (walk tree p1 (walk tree p2 a w3).1.2 w4).1.2.
Proof.
  intros H1 H2.
  rewrite !(walk_visited tree p1 e1), !(walk_visited tree p2 e2) by done.
  apply record_calls_comm.
Qed.
End PureEvaluation.

(** X7. Lookup after [add_platform]: the node just recorded, and any node
    object with the same identity, has a record holding what it had
    before together with the new name; the lookup of every other node
    answers what it answered before. *)
Theorem add_then_get (m : NodeAssociationMap) n p n' :
  NodeAssociationMap_get_association (NodeAssociationMap_add_platform m n p) n' =
  if decide (node_id n' = node_id n)
  then Some (mkNodeAssociation (platform_key m n' ∪ {[ p ]}))
  else NodeAssociationMap_get_association m n'.
Proof.
  unfold NodeAssociationMap_get_association.
  rewrite lookup_add_platform, platform_key_default.
  by destruct (decide (node_id n' = node_id n)).
Qed.

(** X8. [prepare_node] never resets a record: on a node that has one the
    map stays as it is, on a fresh node the lookup then finds the empty
    record (and not [None]); preparing twice is preparing once, and
    [add_platform] on a prepared node is [add_platform]. *)
Theorem prepare_node_keeps_records (m : NodeAssociationMap) n p :
  (is_Some (NodeAssociationMap_get_association m n) →
     NodeAssociationMap_prepare_node m n = m) ∧
  (NodeAssociationMap_get_association m n = None →
     NodeAssociationMap_get_association (NodeAssociationMap_prepare_node m n) n
     = Some NodeAssociation_init) ∧
  NodeAssociationMap_prepare_node (NodeAssociationMap_prepare_node m n) n
  = NodeAssociationMap_prepare_node m n ∧
  NodeAssociationMap_add_platform (NodeAssociationMap_prepare_node m n) n p
  = NodeAssociationMap_add_platform m n p.
Proof.
  assert (Hkeep : ∀ m0 : NodeAssociationMap,
            is_Some (m0 !! node_id n) → NodeAssociationMap_prepare_node m0 n = m0).
  { intros m0 [a Ha]. unfold NodeAssociationMap_prepare_node. by rewrite Ha. }
  assert (Hthere : is_Some (NodeAssociationMap_prepare_node m n !! node_id n)).
  { unfold NodeAssociationMap_prepare_node.
    destruct (m !! node_id n) as [a|] eqn:E; [by rewrite E|].
    rewrite lookup_insert_eq. by eexists. }
  split; [apply Hkeep|]. split; [|split].
  - unfold NodeAssociationMap_get_association, NodeAssociationMap_prepare_node.
    intros ->. by rewrite lookup_insert_eq.
  - by apply Hkeep.
  - unfold NodeAssociationMap_add_platform. by rewrite Hkeep.
Qed.

(** * Further properties of the mapper *)

Lemma mapper_eq (s1 s2 : PlatformMapper) :
  codebase s1 = codebase s2 → line_map s1 = line_map s2 →
  file_map s1 = file_map s2 → s1 = s2.
Proof. destruct s1, s2. cbn. by intros -> -> ->. Qed.

Lemma file_map_ext (fm1 fm2 : gmap (gset string) (gmap string Z)) :
  (∀ S, is_Some (fm1 !! S) ↔ is_Some (fm2 !! S)) →
  (∀ S fn, fm1 !! S ≫= (.!! fn) = fm2 !! S ≫= (.!! fn)) →
  fm1 = fm2.
Proof.
  intros Hdom Hin. apply map_eq. intros S.
  specialize (Hdom S). pose proof (Hin S) as HS.
  destruct (fm1 !! S) as [i1|], (fm2 !! S) as [i2|]; cbn in HS.
  - f_equal. by apply map_eq.
  - destruct Hdom as [Hdom _]. by destruct Hdom.
  - destruct Hdom as [_ Hdom]. by destruct Hdom.
  - done.
Qed.

Lemma account_file_map_is_Some self fn S n S' :
  is_Some (file_map (account self fn S n) !! S')
  ↔ S = S' ∨ is_Some (file_map self !! S').
Proof.
  destruct (decide (S = S')) as [<-|Hne].
  - rewrite account_file_map_eq. split; [by left|by eexists].
  - rewrite account_file_map_ne by done. split; [by right|by intros [?|?]].
Qed.

Lemma defaultdict_iadd_comm `{Countable K} (k1 k2 : K) n1 n2 (m : gmap K Z) :
  defaultdict_iadd k1 n1 (defaultdict_iadd k2 n2 m)
  = defaultdict_iadd k2 n2 (defaultdict_iadd k1 n1 m).
Proof.
  unfold defaultdict_iadd. destruct (decide (k1 = k2)) as [->|Hne].
  - rewrite !lookup_insert_eq, !insert_insert_eq. cbn [default id]. f_equal.
    lia.
  - rewrite !lookup_insert_ne by done. by apply insert_insert_ne.
Qed.

(** Accounting two code nodes in one order or the other gives the same
    mapper. *)
Lemma account_comm self f1 S1 n1 f2 S2 n2 :
  account (account self f1 S1 n1) f2 S2 n2
  = account (account self f2 S2 n2) f1 S1 n1.
Proof.
  apply mapper_eq.
  - done.
  - apply defaultdict_iadd_comm.
  - apply file_map_ext.
    + intros S. rewrite !account_file_map_is_Some. tauto.
    + intros S fn. rewrite !account_file_count.
      repeat case_decide; cbn [default id]; f_equal; lia.
Qed.

Lemma foldl_comm_permutation {A B} (f : A → B → A) (l l' : list B) :
  (∀ a x y, f (f a x) y = f (f a y) x) →
  l ≡ₚ l' → ∀ a, foldl f a l = foldl f a l'.
Proof.
  intros Hf. induction 1 as [|x l l' _ IH|x y l|l l' l'' _ IH1 _ IH2];
    intros a; cbn [foldl].
  - done.
  - apply IH.
  - by rewrite Hf.
  - by rewrite IH1.
Qed.

Lemma account_file_map_insert self fn S n :
  file_map (account self fn S n)
  = <[ S := defaultdict_iadd fn n
              (set_if_absent fn 0%Z (default ∅ (file_map self !! S))) ]>
      (file_map self).
Proof.
  apply map_eq. intros S'. destruct (decide (S = S')) as [<-|Hne].
  - by rewrite account_file_map_eq, lookup_insert_eq.
  - by rewrite account_file_map_ne, lookup_insert_ne.
Qed.

Lemma account_file_total self f S n fn :
  file_total (file_map (account self f S n)) fn
  = (file_total (file_map self) fn + (if decide (f = fn) then n else 0))%Z.
Proof.
  unfold file_total. rewrite account_file_map_insert, fmap_insert.
  rewrite map_sum_insert, lookup_fmap.
  assert (Hold : default 0%Z
            ((fun per_file : gmap string Z => default 0%Z (per_file !! fn))
               <$> file_map self !! S)
          = default 0%Z (default ∅ (file_map self !! S) !! fn)).
  { by destruct (file_map self !! S). }
  rewrite Hold. unfold defaultdict_iadd.
  destruct (decide (f = fn)) as [->|Hne].
  - rewrite lookup_insert_eq, lookup_set_if_absent_eq. cbn [default id]. lia.
  - rewrite lookup_insert_ne, lookup_set_if_absent_ne by done. lia.
Qed.

Lemma accounted_file_total st fn l : ∀ self,
  file_total (file_map (foldl (account_node st) self l)) fn
  = (file_total (file_map self) fn
     + sum_lines (filter (fun x => x.1 = fn) l).*2)%Z.
Proof.
  induction l as [|x l IH]; intros self.
  { cbn. lia. }
  cbn [foldl]. rewrite IH. unfold account_node.
  rewrite account_file_total, filter_cons.
  destruct (decide (x.1 = fn)) as [Hx|Hx].
  - rewrite fmap_cons. unfold sum_lines. cbn [foldr]. lia.
  - lia.
Qed.

Lemma walk_pair self st :
  PlatformMapper_walk self st
  = ((PlatformMapper_walk self st).1,
     (line_map (PlatformMapper_walk self st).1,
      file_map (PlatformMapper_walk self st).1)).
Proof. done. Qed.

Lemma foldl_ext_in {A B} (f g : A → B → A) (l : list B) :
  (∀ a x, x ∈ l → f a x = g a x) → ∀ a, foldl f a l = foldl g a l.
Proof.
  induction l as [|x l IH]; intros Hfg a; [done|].
  cbn [foldl]. rewrite Hfg by (apply elem_of_cons; by left).
  apply IH. intros a' y Hy. apply Hfg. apply elem_of_cons. by right.
Qed.

(** X9. The keys of the line map: after the walk of a fresh mapper a
    platform set is a key exactly when some code node of an in-codebase
    file has it; a code node of zero lines makes its key appear, with
    nothing added to the count. *)
Theorem line_map_keys cb st S :
  well_formed st →
  S ∈ dom (PlatformMapper_walk (PlatformMapper_init cb) st).2.1
  ↔ ∃ x, x ∈ all_code_nodes cb st ∧ platform_key (get_map st x.1) x.2 = S.
Proof.
  intros Hwf.
  change (PlatformMapper_walk (PlatformMapper_init cb) st).2.1
    with (line_map (PlatformMapper_walk (PlatformMapper_init cb) st).1).
  rewrite walk_fresh, elem_of_dom, accounted_line_map by done. cbv zeta.
  fold (nodes_with_key cb st S).
  destruct (decide (nodes_with_key cb st S = [])) as [He|Hne].
  - cbn [line_map PlatformMapper_init]. rewrite lookup_empty. split.
    + by intros [? ?].
    + intros (x & Hx & Hk).
      assert (Hin : x ∈ nodes_with_key cb st S) by by apply list_elem_of_filter.
      rewrite He in Hin. by apply elem_of_nil in Hin.
  - split; [intros _|by eexists].
    destruct (nodes_with_key cb st S) as [|x l] eqn:E; [done|].
    assert (Hin : x ∈ nodes_with_key cb st S)
      by (rewrite E; apply elem_of_cons; by left).
    apply list_elem_of_filter in Hin as [Hk Hx]. by exists x.
Qed.

(** X10. The count of a file under a key: after the walk of a fresh
    mapper, the file map holds under key [S], for file [fn], the lines of
    the code nodes of that file whose platform set is [S]; a file with no
    such node has no entry under [S]. *)
Theorem file_map_counts cb st S fn :
  well_formed st →
  (PlatformMapper_walk (PlatformMapper_init cb) st).2.2 !! S ≫= (.!! fn) =
  if decide (nodes_with_key_in cb st S fn = []) then None
  else Some (sum_lines (nodes_with_key_in cb st S fn).*2).
Proof.
  intros Hwf.
  change (PlatformMapper_walk (PlatformMapper_init cb) st).2.2
    with (file_map (PlatformMapper_walk (PlatformMapper_init cb) st).1).
  rewrite walk_fresh, accounted_file_map by done. cbv zeta.
  fold (nodes_with_key cb st S). fold (nodes_with_key_in cb st S fn).
  cbn [file_map PlatformMapper_init]. by rewrite lookup_empty.
Qed.

(** X11. Conservation of lines per file: after the walk of a fresh
    mapper, the counts the file map holds for one file, added over all
    keys, are the lines of the code nodes of that file in the state. *)
Theorem file_totals cb st fn :
  well_formed st →
  file_total (PlatformMapper_walk (PlatformMapper_init cb) st).2.2 fn
  = sum_lines (filter (fun x => x.1 = fn) (all_code_nodes cb st)).*2.
Proof.
  intros Hwf.
  change (PlatformMapper_walk (PlatformMapper_init cb) st).2.2
    with (file_map (PlatformMapper_walk (PlatformMapper_init cb) st).1).
  rewrite walk_fresh, accounted_file_total by done.
  cbn [file_map PlatformMapper_init]. unfold file_total.
  rewrite fmap_empty, (map_sum_empty (K:=gset string)). lia.
Qed.

(** X12. The guard of [walk] looks at the line map, not at the state: a
    mapper whose first walk counted something answers a walk on any other
    state with the maps of the first; a mapper whose first walk counted
    nothing aggregates the other state as a fresh mapper would. *)
Theorem walk_guard_across_states cb st1 st2 :
  let first := PlatformMapper_walk (PlatformMapper_init cb) st1 in
  (first.2.1 ≠ ∅ → PlatformMapper_walk first.1 st2 = first) ∧
  (first.2.1 = ∅ →
     PlatformMapper_walk first.1 st2
     = PlatformMapper_walk (PlatformMapper_init cb) st2).
Proof.
  intros first. change first.2.1 with (line_map first.1). split.
  - intros Hne. unfold PlatformMapper_walk at 1.
    by rewrite bool_decide_eq_false_2 by done.
  - intros He.
    assert (Hc : consistent first.1)
      by apply walk_consistent, PlatformMapper_init_consistent.
    assert (Hf : file_map first.1 = ∅).
    { apply map_eq. intros S. specialize (Hc S). rewrite He in Hc.
      rewrite !lookup_empty in *. by destruct (file_map first.1 !! S). }
    assert (Hinit : first.1 = PlatformMapper_init cb).
    { apply mapper_eq; [apply walk_codebase|done|done]. }
    by rewrite Hinit.
Qed.

(** X13. The order of the files does not matter: walking a state whose
    file names are listed in another order gives the same two maps. *)
Theorem file_order_irrelevant cb st l' :
  well_formed st → l' ≡ₚ get_filenames st →
  PlatformMapper_walk (PlatformMapper_init cb)
    (mkState l' (get_tree st) (get_map st))
  = PlatformMapper_walk (PlatformMapper_init cb) st.
Proof.
  intros Hwf Hperm.
  assert (Hwf' : well_formed (mkState l' (get_tree st) (get_map st))).
  { intros fn Hfn. cbn [get_filenames get_tree] in *. apply Hwf.
    by rewrite <- Hperm. }
  rewrite (walk_pair _ st), (walk_pair _ (mkState _ _ _)).
  rewrite !walk_fresh by done.
  assert (Heq : foldl (account_node (mkState l' (get_tree st) (get_map st)))
                  (PlatformMapper_init cb)
                  (all_code_nodes cb (mkState l' (get_tree st) (get_map st)))
                = foldl (account_node st) (PlatformMapper_init cb)
                    (all_code_nodes cb st)).
  { change (account_node (mkState l' (get_tree st) (get_map st)))
      with (account_node st).
    apply foldl_comm_permutation.
    - intros a x y. unfold account_node. apply account_comm.
    - unfold all_code_nodes, codebase_files.
      cbn [get_filenames get_tree]. by rewrite Hperm. }
  by rewrite Heq.
Qed.

(** X14. The maps depend on the association maps through the keys of the
    code nodes only: two states with the same files and trees whose
    association maps give every code node of an in-codebase file the same
    platform set are aggregated into the same maps, whatever they record
    on the other nodes. *)
Theorem maps_depend_on_code_node_keys cb st maps' :
  well_formed st →
  (∀ x, x ∈ all_code_nodes cb st →
     platform_key (maps' x.1) x.2 = platform_key (get_map st x.1) x.2) →
  PlatformMapper_walk (PlatformMapper_init cb)
    (mkState (get_filenames st) (get_tree st) maps')
  = PlatformMapper_walk (PlatformMapper_init cb) st.
Proof.
  intros Hwf Hkeys.
  rewrite (walk_pair _ st), (walk_pair _ (mkState _ _ _)).
  rewrite !walk_fresh by done.
  change (all_code_nodes cb (mkState (get_filenames st) (get_tree st) maps'))
    with (all_code_nodes cb st).
  assert (Heq : foldl (account_node (mkState (get_filenames st) (get_tree st) maps'))
                  (PlatformMapper_init cb) (all_code_nodes cb st)
                = foldl (account_node st) (PlatformMapper_init cb)
                    (all_code_nodes cb st)).
  { apply foldl_ext_in. intros a x Hx. unfold account_node.
    cbn [get_map]. by rewrite Hkeys. }
  by rewrite Heq.
Qed.

(** * The printer *)

Section PrinterFacts.
Variable node_str : Node -> string.
Variable iteration : gset string -> list string.

Local Abbreviation print_nodes := (__print_nodes node_str iteration).





End PrinterFacts.

(** * The command line *)

(** X16. Some report is always printed: whatever list of reports the
    parser accepts, at least one of the three reports is enabled; and a
    report enabled for a list stays enabled for every list containing
    it. *)
Theorem some_report_enabled reports :
  accepted_reports reports →
  (∃ name, name ∈ ["summary"; "filemap"; "clustering"] ∧
           report_enabled reports name = true) ∧
  (∀ reports' name, reports ⊆ reports' →
     report_enabled reports name = true → report_enabled reports' name = true).
Proof.
  intros [Hne Hall]. split.
  - destruct reports as [|r reports]; [done|].
    apply Forall_cons in Hall as [Hr _]. unfold report_choices in Hr.
    assert (Hin : r ∈ r :: reports) by (apply elem_of_cons; by left).
    unfold report_enabled.
    repeat (apply elem_of_cons in Hr as [->|Hr]).
    + exists "summary". split; [apply elem_of_cons; by left|].
      by rewrite bool_decide_eq_true_2.
    + exists "summary". split; [apply elem_of_cons; by left|].
      case_bool_decide; [done|]. by rewrite bool_decide_eq_true_2.
    + exists "clustering".
      split; [do 2 (apply elem_of_cons; right); apply elem_of_cons; by left|].
      case_bool_decide; [done|]. by rewrite bool_decide_eq_true_2.
    + exists "filemap".
      split; [apply elem_of_cons; right; apply elem_of_cons; by left|].
      case_bool_decide; [done|]. by rewrite bool_decide_eq_true_2.
    + by apply elem_of_nil in Hr.
  - intros reports' name Hsub. unfold report_enabled.
    repeat case_bool_decide; try done.
    + exfalso. auto.
    + intros _. exfalso. auto.
Qed.

(** X17. The level of the logger: it is never below 1, so never the
    level that hands the decision to the parent logger; it is
    [WARNING - 10 * (verbose - quiet)] as long as that is positive, which
    is from two [-v] more than [-q] downwards, and 1 from three on; more
    [-v] never raise it and more [-q] never lower it. *)
Theorem log_level_bounds verbose quiet :
  (1 ≤ log_level verbose quiet)%Z ∧
  ((verbose - quiet ≤ 2)%Z →
     log_level verbose quiet = (WARNING - 10 * (verbose - quiet))%Z) ∧
  ((3 ≤ verbose - quiet)%Z → log_level verbose quiet = 1%Z) ∧
  (∀ verbose', (verbose ≤ verbose')%Z →
     (log_level verbose' quiet ≤ log_level verbose quiet)%Z) ∧
  (∀ quiet', (quiet ≤ quiet')%Z →
     (log_level verbose quiet ≤ log_level verbose quiet')%Z).
Proof. unfold log_level, WARNING. repeat split; intros; lia. Qed.

(** * The platform set of a node after a pass *)

Lemma names_for_calls_of n p l :
  list_to_set (names_for n (calls_of p l)) =@{gset string}
  if decide (node_id n ∈ node_id <$> l) then {[ p ]} else ∅.
Proof.
  unfold names_for, calls_of. induction l as [|x l IH]; [done|].
  rewrite !fmap_cons, filter_cons. cbn [fst].
  destruct (decide (node_id x = node_id n)) as [Hx|Hx].
  - rewrite (decide_True (P := _ ∈ _ :: _)) by (apply elem_of_cons; by left).
    rewrite fmap_cons. cbn [list_to_set snd]. rewrite IH.
    destruct (decide (node_id n ∈ node_id <$> l)).
    + apply union_idemp_L.
    + apply (right_id_L ∅ (∪)).
  - rewrite IH.
    destruct (decide (node_id n ∈ node_id <$> l)) as [Hin|Hout].
    + rewrite (decide_True (P := _ ∈ _ :: _)); [done|].
      apply elem_of_cons. by right.
    + rewrite (decide_False (P := _ ∈ _ :: _)); [done|].
      intros [Heq|Hin]%elem_of_cons; [by apply Hx|by apply Hout].
Qed.

Section PlatformSetAfterPass.
Context {Platform W : Type}.
Variable name : Platform -> string.
Variable evaluate_for_platform :
  Node -> Platform -> string -> W -> option bool * W.

(** X18. The platform set of a node after a walk: with answers that do
    not depend on the world, the walk adds the platform's name to the key
    of exactly the nodes that [visited] lists for the root, and leaves the
    key of every other node as it was. *)
Theorem key_after_pass tree p e a w n :
  answers evaluate_for_platform p (filename (root tree)) e →
  platform_key (TreeAssociator_walk name evaluate_for_platform tree p a w).1.2 n
  = if decide (node_id n ∈ node_id <$> (visited e (root tree) true).2)
    then platform_key a n ∪ {[ name p ]}
    else platform_key a n.
Proof.
  intros He.
  rewrite (walk_visited name evaluate_for_platform tree p e a w He).
  rewrite platform_key_record_calls, names_for_calls_of.
  destruct (decide (node_id n ∈ node_id <$> (visited e (root tree) true).2));
    [done|].
  apply (right_id_L ∅ (∪)).
Qed.
End PlatformSetAfterPass.

(** * Worked instances of the further properties *)

Lemma two_file_state_well_formed : well_formed two_file_state.
Proof.
  intros f _. split; [done|]. split; [done|]. cbn. repeat constructor.
Qed.

Lemma scenario_answers_hold p fn :
  answers scenario_evaluate p fn (scenario_answers p).
Proof. intros n w. reflexivity. Qed.

Lemma pass_writes_inside_tree_witness :
  (TreeAssociator_walk id scenario_evaluate (scenario_tree "f.c") "p1"
     NodeAssociationMap_init tt).1.2 !! 99
  = NodeAssociationMap_init !! 99.
Proof.
  apply (pass_writes_inside_tree id scenario_evaluate (scenario_tree "f.c")
           "p1" NodeAssociationMap_init tt 99).
  apply (bool_decide_unpack _). vm_compute. exact I.
Defined.

Lemma processed_node_children_recorded_witness :
  recorded
    (_associate_nodes id scenario_evaluate (scenario_tree "f.c")
       (scenario_root "f.c") "p1" true NodeAssociationMap_init tt).1.2
    (node_id scenario_else) "p1".
Proof.
  apply (processed_node_children_recorded id scenario_evaluate
           (scenario_tree "f.c") (scenario_root "f.c") "p1" true
           NodeAssociationMap_init tt).
  - vm_compute. reflexivity.
  - do 2 (apply elem_of_cons; right). apply elem_of_cons. by left.
Defined.

Lemma passes_leave_no_empty_record_witness :
  no_empty_records NodeAssociationMap_init ∧
  no_empty_records
    (TreeAssociator_walk id scenario_evaluate (scenario_tree "f.c") "p1"
       NodeAssociationMap_init tt).1.2.
Proof.
  assert (Hinit : no_empty_records NodeAssociationMap_init).
  { intros k a Hk. unfold NodeAssociationMap_init in Hk.
    by rewrite lookup_empty in Hk. }
  split; [exact Hinit|].
  apply (passes_leave_no_empty_record id scenario_evaluate (scenario_tree "f.c")
           "p1" NodeAssociationMap_init tt).
  exact Hinit.
Defined.

Lemma pass_independent_of_map_witness :
  (_associate_nodes id scenario_evaluate (scenario_tree "f.c")
     (scenario_root "f.c") "p2" true NodeAssociationMap_init tt).1.1
  = (_associate_nodes id scenario_evaluate (scenario_tree "f.c")
       (scenario_root "f.c") "p2" true
       (NodeAssociationMap_add_platform NodeAssociationMap_init scenario_if "p1")
       tt).1.1.
Proof.
  apply (pass_independent_of_map id scenario_evaluate (scenario_tree "f.c")
           (scenario_root "f.c") "p2" (scenario_answers "p2")).
  apply scenario_answers_hold.
Defined.

Lemma repeated_pass_changes_nothing_witness :
  (TreeAssociator_walk id scenario_evaluate (scenario_tree "f.c") "p1"
     (TreeAssociator_walk id scenario_evaluate (scenario_tree "f.c") "p1"
        NodeAssociationMap_init tt).1.2 tt).1.2
  = (TreeAssociator_walk id scenario_evaluate (scenario_tree "f.c") "p1"
       NodeAssociationMap_init tt).1.2.
Proof.
  apply (repeated_pass_changes_nothing id scenario_evaluate
           (scenario_tree "f.c") "p1" (scenario_answers "p1")).
  apply scenario_answers_hold.
Defined.

Lemma passes_commute_witness :
  (TreeAssociator_walk id scenario_evaluate (scenario_tree "f.c") "p2"
     (TreeAssociator_walk id scenario_evaluate (scenario_tree "f.c") "p1"
        NodeAssociationMap_init tt).1.2 tt).1.2
  = (TreeAssociator_walk id scenario_evaluate (scenario_tree "f.c") "p1"
       (TreeAssociator_walk id scenario_evaluate (scenario_tree "f.c") "p2"
          NodeAssociationMap_init tt).1.2 tt).1.2.
Proof.
  apply (passes_commute id scenario_evaluate (scenario_tree "f.c") "p1" "p2"
           (scenario_answers "p1") (scenario_answers "p2"));
    apply scenario_answers_hold.
Defined.

Lemma key_after_pass_witness :
  platform_key
    (TreeAssociator_walk id scenario_evaluate (scenario_tree "f.c") "p2"
       NodeAssociationMap_init tt).1.2 scenario_if_body
  = platform_key NodeAssociationMap_init scenario_if_body.
Proof.
  rewrite (key_after_pass id scenario_evaluate (scenario_tree "f.c") "p2"
             (scenario_answers "p2") NodeAssociationMap_init tt
             scenario_if_body (scenario_answers_hold "p2" "f.c")).
  reflexivity.
Defined.

Lemma line_map_keys_witness :
  well_formed two_file_state ∧
  _null_set ∈ dom (PlatformMapper_walk
                     (PlatformMapper_init (mkCodebase ["a.c"; "b.c"]))
                     two_file_state).2.1.
Proof.
  split; [apply two_file_state_well_formed|].
  apply (line_map_keys (mkCodebase ["a.c"; "b.c"]) two_file_state _null_set
           two_file_state_well_formed).
  exists ("a.c", scenario_prologue). split; [|reflexivity].
  apply list_elem_of_here.
Defined.

Lemma file_map_counts_witness :
  (PlatformMapper_walk (PlatformMapper_init (mkCodebase ["a.c"; "b.c"]))
     two_file_state).2.2 !! _null_set ≫= (.!! "b.c")
  = Some 11%Z.
Proof.
  rewrite (file_map_counts (mkCodebase ["a.c"; "b.c"]) two_file_state
             _null_set "b.c" two_file_state_well_formed).
  reflexivity.
Defined.

Lemma file_totals_witness :
  file_total
    (PlatformMapper_walk (PlatformMapper_init (mkCodebase ["a.c"; "b.c"]))
       two_file_state).2.2 "a.c"
  = 11%Z.
Proof.
  rewrite (file_totals (mkCodebase ["a.c"; "b.c"]) two_file_state "a.c"
             two_file_state_well_formed).
  reflexivity.
Defined.

Lemma file_order_irrelevant_witness :
  ["b.c"; "a.c"] ≡ₚ get_filenames two_file_state ∧
  PlatformMapper_walk (PlatformMapper_init (mkCodebase ["a.c"]))
    (mkState ["b.c"; "a.c"] (get_tree two_file_state)
             (get_map two_file_state))
  = PlatformMapper_walk (PlatformMapper_init (mkCodebase ["a.c"]))
      two_file_state.
Proof.
  assert (Hperm : ["b.c"; "a.c"] ≡ₚ get_filenames two_file_state)
    by apply Permutation_swap.
  split; [exact Hperm|].
  apply (file_order_irrelevant (mkCodebase ["a.c"]) two_file_state
           ["b.c"; "a.c"] two_file_state_well_formed Hperm).
Defined.

Lemma maps_depend_on_code_node_keys_witness :
  PlatformMapper_walk (PlatformMapper_init (mkCodebase ["a.c"]))
    (mkState (get_filenames two_file_state) (get_tree two_file_state)
       (fun _ => NodeAssociationMap_prepare_node NodeAssociationMap_init
                   scenario_if))
  = PlatformMapper_walk (PlatformMapper_init (mkCodebase ["a.c"]))
      two_file_state.
Proof.
  apply (maps_depend_on_code_node_keys (mkCodebase ["a.c"]) two_file_state
           (fun _ => NodeAssociationMap_prepare_node NodeAssociationMap_init
                       scenario_if)
           two_file_state_well_formed).
  intros x Hx.
  apply list_elem_of_bind in Hx as (fn & Hx & _).
  apply list_elem_of_fmap in Hx as (n & -> & Hn).
  cbn [fst snd].
  change (code_nodes (get_tree two_file_state fn))
    with [scenario_prologue; scenario_if_body; scenario_else_body;
          scenario_epilogue] in Hn.
  repeat (apply elem_of_cons in Hn as [->|Hn]; [reflexivity|]).
  by apply elem_of_nil in Hn.
Defined.

Lemma some_report_enabled_witness :
  accepted_reports ["summary"] ∧
  ∃ name, name ∈ ["summary"; "filemap"; "clustering"] ∧
          report_enabled ["summary"] name = true.
Proof.
  assert (Hacc : accepted_reports ["summary"]).
  { split; [done|]. repeat constructor. }
  split; [exact Hacc|].
  apply (some_report_enabled ["summary"] Hacc).
Defined.
